(** * wff-solver: a shallow embedding of [LogicParser] and its properties

    The Python class [LogicParser] of [wff-solver.py] decides whether a
    string is a well-formed propositional formula by rewriting basic
    compounds into placeholder symbols, and narrates the derivation.

    Python strings are sequences of code points: a character is its code
    point ([N]) and a string is a list of characters.  Integers that the
    program lets go negative (nesting levels, the [-1] sentinels) are [Z]. *)

From Stdlib Require Import ZArith NArith String Ascii Lia DecimalNat.
From stdpp Require Import gmap list.

Local Open Scope Z_scope.

(** ** Characters, strings and literals *)

Abbreviation char := N (only parsing).
Abbreviation str := (list N) (only parsing).

Definition LP : char := 40%N.      (* '(' *)
Definition RP : char := 41%N.      (* ')' *)
Definition SPACE : char := 32%N.   (* ' ' *)
Definition NL : char := 10%N.      (* '\n' *)
Definition NEG : char := 172%N.    (* '¬' U+00AC *)
Definition AND : char := 8743%N.   (* '∧' U+2227 *)
Definition OR : char := 8744%N.    (* '∨' U+2228 *)
Definition IMPL : char := 8658%N.  (* '⇒' U+21D2 *)
Definition EQUIV : char := 8660%N. (* '⇔' U+21D4 *)

(** String literals of the source are written [py "..."]: the UTF-8 bytes
    of the literal decoded into code points. *)
Fixpoint utf8_decode (bs : list N) : str :=
  match bs with
  | [] => []
  | b :: rest =>
    if (b <? 128)%N then b :: utf8_decode rest
    else if (b <? 224)%N then
      match rest with
      | b1 :: rest1 => ((b - 192) * 64 + (b1 - 128))%N :: utf8_decode rest1
      | [] => []
      end
    else if (b <? 240)%N then
      match rest with
      | b1 :: b2 :: rest2 =>
        ((b - 224) * 4096 + (b1 - 128) * 64 + (b2 - 128))%N :: utf8_decode rest2
      | _ => []
      end
    else
      match rest with
      | b1 :: b2 :: b3 :: rest3 =>
        ((b - 240) * 262144 + (b1 - 128) * 4096 + (b2 - 128) * 64 + (b3 - 128))%N
          :: utf8_decode rest3
      | _ => []
      end
  end.

Definition py (s : string) : str :=
  utf8_decode (map N_of_ascii (list_ascii_of_string s)).

Definition nl : str := [NL].

(** [s.startswith(c)] and [s.endswith(c)] for a one-character [c]. *)
Definition startswith (s : str) (c : char) : bool :=
  match s with
  | [] => false
  | x :: _ => (x =? c)%N
  end.

Definition endswith (s : str) (c : char) : bool :=
  match last s with
  | None => false
  | Some x => (x =? c)%N
  end.

(** [s[i:j]] for bounds [0 <= i] and [0 <= j], the only ones the program
    uses with variables. *)
Definition slice (s : str) (i j : Z) : str :=
  take (Z.to_nat j - Z.to_nat i)%nat (drop (Z.to_nat i) s).

(** [s[1:-1]]: the string without its first and last character (empty for
    strings of fewer than two characters). *)
Definition strip_ends (s : str) : str :=
  take (length s - 2)%nat (drop 1 s).

(** [sep.join(lines)] *)
Fixpoint join (sep : str) (lines : list str) : str :=
  match lines with
  | [] => []
  | [l] => l
  | l :: ls => l ++ sep ++ join sep ls
  end.

(** [str(n)] for a non-negative integer. *)
Fixpoint chars_of_uint (d : Decimal.uint) : str :=
  match d with
  | Decimal.Nil => []
  | Decimal.D0 d => 48%N :: chars_of_uint d
  | Decimal.D1 d => 49%N :: chars_of_uint d
  | Decimal.D2 d => 50%N :: chars_of_uint d
  | Decimal.D3 d => 51%N :: chars_of_uint d
  | Decimal.D4 d => 52%N :: chars_of_uint d
  | Decimal.D5 d => 53%N :: chars_of_uint d
  | Decimal.D6 d => 54%N :: chars_of_uint d
  | Decimal.D7 d => 55%N :: chars_of_uint d
  | Decimal.D8 d => 56%N :: chars_of_uint d
  | Decimal.D9 d => 57%N :: chars_of_uint d
  end.

Definition str_of_nat (n : nat) : str := chars_of_uint (Nat.to_uint n).

(** ** Character classes

    [str.isalpha] and [str.isdigit] consult the Unicode database of the
    Python runtime.  The database is a parameter; what is used of it is
    that on the ASCII range the letters are [A-Z] and [a-z], the digits are
    [0-9], and that the five connective symbols are neither. *)

Definition ascii_letter (c : char) : bool :=
  ((65 <=? c) && (c <=? 90) || (97 <=? c) && (c <=? 122))%N.

Definition ascii_digit (c : char) : bool := ((48 <=? c) && (c <=? 57))%N.

(** [self.operators]: the keys of the operator dictionary. *)
Definition operators : list char := [EQUIV; IMPL; OR; AND; NEG].

Definition is_operator (c : char) : bool := bool_decide (c ∈ operators).

Class Unicode := {
  isalpha : char → bool;
  isdigit : char → bool;
  isalpha_ascii : ∀ c, (c < 128)%N → isalpha c = ascii_letter c;
  isdigit_ascii : ∀ c, (c < 128)%N → isdigit c = ascii_digit c;
  isalpha_operator : ∀ c, is_operator c = true → isalpha c = false;
  isdigit_operator : ∀ c, is_operator c = true → isdigit c = false
}.

(** The classification that knows the ASCII letters and digits only. *)
Lemma ascii_letter_operator c : is_operator c = true → ascii_letter c = false.
Proof.
  unfold is_operator, operators. intros Hc%bool_decide_eq_true.
  repeat (apply elem_of_cons in Hc as [->|Hc]; [reflexivity|]).
  by apply elem_of_nil in Hc.
Qed.

Lemma ascii_digit_operator c : is_operator c = true → ascii_digit c = false.
Proof.
  unfold is_operator, operators. intros Hc%bool_decide_eq_true.
  repeat (apply elem_of_cons in Hc as [->|Hc]; [reflexivity|]).
  by apply elem_of_nil in Hc.
Qed.

Definition ascii_only : Unicode :=
  {| isalpha := ascii_letter;
     isdigit := ascii_digit;
     isalpha_ascii := λ _ _, eq_refl;
     isdigit_ascii := λ _ _, eq_refl;
     isalpha_operator := ascii_letter_operator;
     isdigit_operator := ascii_digit_operator |}.

(** [s.isalpha()] and [s.isdigit()]: every character qualifies and there is
    at least one. *)
Definition str_isalpha `{Unicode} (s : str) : bool :=
  negb (bool_decide (s = [])) && forallb isalpha s.

Definition str_isdigit `{Unicode} (s : str) : bool :=
  negb (bool_decide (s = [])) && forallb isdigit s.

(** ** Results of fallible code

    An index out of range raises [IndexError]; a [while] loop is run with
    fuel and [OutOfFuel] stands for a loop that did not finish. *)
Inductive result (A : Type) : Type :=
| Ok (a : A)
| IndexError
| OutOfFuel.
Arguments Ok {A} a.
Arguments IndexError {A}.
Arguments OutOfFuel {A}.

#[global] Instance result_ret : MRet result := λ A a, Ok a.
#[global] Instance result_bind : MBind result := λ A B k r,
  match r with
  | Ok a => k a
  | IndexError => IndexError
  | OutOfFuel => OutOfFuel
  end.

(** [s[i]] *)
Definition index (s : str) (i : Z) : result char :=
  if i <? 0 then IndexError  (* the program never indexes from the end *)
  else match s !! Z.to_nat i with
       | Some c => Ok c
       | None => IndexError
       end.

(** ** Grammar predicates *)

Section Parser.
Context `{U : Unicode}.

(** [is_atomic]: a letter alone, or a letter followed by digits. *)
Definition is_atomic (formula : str) : bool :=
  match formula with
  | [] => false                                   (* not formula *)
  | [c] => str_isalpha [c]                        (* len(formula) == 1 *)
  | c :: rest => str_isalpha [c] && str_isdigit rest
  end.

(** [check_parentheses] *)
Fixpoint check_parentheses_loop (formula : str) (count : Z) : bool :=
  match formula with
  | [] => count =? 0
  | c :: rest =>
    let count :=
      if (c =? LP)%N then count + 1
      else if (c =? RP)%N then count - 1
      else count in
    if count <? 0 then false else check_parentheses_loop rest count
  end.

Definition check_parentheses (formula : str) : bool :=
  check_parentheses_loop formula 0.

(** [find_subformula_end]: [rest] is [formula[i:]], for [i] ranging over
    [range(start + 1, len(formula))]. *)
Fixpoint find_subformula_end_loop (rest : str) (i : Z) (count : Z) : Z :=
  match rest with
  | [] => -1
  | c :: rest' =>
    if (c =? LP)%N then find_subformula_end_loop rest' (i + 1) (count + 1)
    else if (c =? RP)%N then
      let count := count - 1 in
      if count =? 0 then i
      else find_subformula_end_loop rest' (i + 1) count
    else find_subformula_end_loop rest' (i + 1) count
  end.

Definition find_subformula_end (formula : str) (start : Z) : Z :=
  find_subformula_end_loop (drop (Z.to_nat (start + 1)) formula) (start + 1) 1.

(** [is_valid_negation] *)
Definition is_valid_negation (formula : str) : bool :=
  if startswith formula LP && endswith formula RP then
    let inner := strip_ends formula in
    if startswith inner NEG then
      let after_neg := drop 1 inner in
      if is_atomic after_neg then true
      else if startswith after_neg LP then
        let inner_of_neg :=
          if endswith after_neg RP then strip_ends after_neg else after_neg in
        if is_atomic inner_of_neg then false else true
      else false
    else true
  else true.

End Parser.

(** ** The parser object

    The fields of [self] that change; [self.operators] is the constant
    [operators]. *)
Record parser := Parser {
  atomic_counter : nat;
  steps : list str;
  substitutions : gmap (list N) (list N);
  reverse_steps : list str
}.

Definition append_step (p : parser) (line : str) : parser :=
  Parser (atomic_counter p) (steps p ++ [line]) (substitutions p) (reverse_steps p).

Definition insert_reverse_step (p : parser) (line : str) : parser :=
  Parser (atomic_counter p) (steps p) (substitutions p) (line :: reverse_steps p).

Definition store_substitution (p : parser) (compound new_atomic : str) : parser :=
  Parser (atomic_counter p) (steps p)
         (<[compound := new_atomic]> (substitutions p)) (reverse_steps p).

(** [generate_new_atomic] *)
Definition generate_new_atomic (p : parser) : parser * str :=
  let p := Parser (S (atomic_counter p)) (steps p) (substitutions p) (reverse_steps p) in
  (p, py "X" ++ str_of_nat (atomic_counter p)).

Section Engine.
Context `{U : Unicode}.

(** [p in self.substitutions] *)
Definition in_substitutions (subs : gmap (list N) (list N)) (p : str) : bool :=
  bool_decide (is_Some (subs !! p)).

(** ** Structural scanner *)

(** The splitting loop of [is_basic_compound] over the characters of
    [inner]; [None] is the early [return False]. *)
Fixpoint split_parts (inner : str) (parts : list str) (paren_count : Z)
    (current : str) (operator : option char)
  : option (list str * str * option char) :=
  match inner with
  | [] => Some (parts, current, operator)
  | c :: inner' =>
    if (c =? LP)%N then
      split_parts inner' parts (paren_count + 1) (current ++ [c]) operator
    else if (c =? RP)%N then
      split_parts inner' parts (paren_count - 1) (current ++ [c]) operator
    else if is_operator c && (paren_count =? 0) then
      match operator with
      | None =>
        let parts := if bool_decide (current = []) then parts else parts ++ [current] in
        split_parts inner' parts paren_count [] (Some c)
      | Some _ => None
      end
    else split_parts inner' parts paren_count (current ++ [c]) operator
  end.

Definition is_basic_compound (subs : gmap (list N) (list N)) (formula : str) : bool :=
  if negb (startswith formula LP && endswith formula RP) then false
  else
    let inner := strip_ends formula in
    if startswith inner NEG then
      let after_neg := drop 1 inner in
      is_atomic after_neg || in_substitutions subs after_neg
    else
      match split_parts inner [] 0 [] None with
      | None => false
      | Some (parts, current, operator) =>
        let parts := if bool_decide (current = []) then parts else parts ++ [current] in
        if negb (length parts =? 2)%nat || bool_decide (operator = None) then false
        else forallb (λ p, is_atomic p || in_substitutions subs p) parts
      end.

(** The loop of [find_first_basic_compound]; [rest] is [formula[i:]]. *)
Fixpoint find_first_loop (subs : gmap (list N) (list N)) (formula rest : str) (i : Z)
    (max_level compound_start compound_end current_level : Z) : Z * Z :=
  match rest with
  | [] => (compound_start, compound_end)
  | c :: rest' =>
    if (c =? LP)%N then
      let current_level := current_level + 1 in
      if max_level <=? current_level then
        let potential_end := find_subformula_end formula i in
        if negb (potential_end =? -1) then
          let potential_compound := slice formula i (potential_end + 1) in
          if is_basic_compound subs potential_compound then
            find_first_loop subs formula rest' (i + 1)
                            current_level i (potential_end + 1) current_level
          else
            find_first_loop subs formula rest' (i + 1)
                            max_level compound_start compound_end current_level
        else
          find_first_loop subs formula rest' (i + 1)
                          max_level compound_start compound_end current_level
      else
        find_first_loop subs formula rest' (i + 1)
                        max_level compound_start compound_end current_level
    else if (c =? RP)%N then
      find_first_loop subs formula rest' (i + 1)
                      max_level compound_start compound_end (current_level - 1)
    else
      find_first_loop subs formula rest' (i + 1)
                      max_level compound_start compound_end current_level
  end.

(** [find_first_basic_compound]; [None] is the triple [(None, None, None)]. *)
Definition find_first_basic_compound (subs : gmap (list N) (list N)) (formula : str)
  : option (Z * Z * str) :=
  let '(compound_start, compound_end) :=
    find_first_loop subs formula formula 0 0 (-1) (-1) 0 in
  if negb (compound_start =? -1) && negb (compound_end =? -1) then
    Some (compound_start, compound_end, slice formula compound_start compound_end)
  else None.

(** ** Component extractor *)

(** The scan of [extract_components] for the first operator at depth zero;
    [i] is the index of the head of [rest] in [inner]. *)
Fixpoint extract_loop (inner rest : str) (i : Z) (paren_count : Z)
  : option (char * option str * str) :=
  match rest with
  | [] => None
  | c :: rest' =>
    if (c =? LP)%N then extract_loop inner rest' (i + 1) (paren_count + 1)
    else if (c =? RP)%N then extract_loop inner rest' (i + 1) (paren_count - 1)
    else if (paren_count =? 0) && is_operator c then
      Some (c, Some (slice inner 0 i), drop (Z.to_nat (i + 1)) inner)
    else extract_loop inner rest' (i + 1) paren_count
  end.

(** [extract_components]; [None] is the triple [(None, None, None)], and
    the left operand of a negation is Python's [None]. *)
Definition extract_components (formula : str) : option (char * option str * str) :=
  let inner := strip_ends formula in
  if is_atomic inner then None
  else if startswith inner NEG then
    if negb (is_valid_negation formula) then None
    else Some (NEG, None, drop 1 inner)
  else extract_loop inner inner 0 0.

End Engine.

(** ** Reduction engine *)

Section Solve.
Context `{U : Unicode}.

(** [original_formula.replace(" ", "")] *)
Definition remove_spaces (s : str) : str :=
  filter (λ c, c ≠ SPACE) s.

(** [while j < len(formula) and formula[j].isdigit(): j += 1] *)
Fixpoint scan_digits (fuel : nat) (formula : str) (j : Z) : result Z :=
  match fuel with
  | O => OutOfFuel
  | S fuel =>
    if j <? Z.of_nat (length formula) then
      c ← index formula j;
      if str_isdigit [c] then scan_digits fuel formula (j + 1) else Ok j
    else Ok j
  end.

Definition atomic_fact (a : str) : str :=
  a ++ py " - atomic => " ++ a ++ py " belongs to P(v)".

(** The pass that records every letter-digits token, [while i < len(formula)]. *)
Fixpoint scan_atomics (fuel : nat) (formula : str) (i : Z)
    (atomic_vars : gset (list N)) (p : parser) : result parser :=
  match fuel with
  | O => OutOfFuel
  | S fuel =>
    if i <? Z.of_nat (length formula) then
      c ← index formula i;
      if str_isalpha [c] then
        j ← scan_digits fuel formula (i + 1);
        let potential_atomic := slice formula i j in
        if is_atomic potential_atomic
           && negb (bool_decide (potential_atomic ∈ atomic_vars)) then
          scan_atomics fuel formula j ({[potential_atomic]} ∪ atomic_vars)
                       (append_step p (atomic_fact potential_atomic))
        else scan_atomics fuel formula j atomic_vars p
      else scan_atomics fuel formula (i + 1) atomic_vars p
    else Ok p
  end.

(** [x if self.is_atomic(x) else self.substitutions.get(x, x)]; for
    Python's [None] both tests fail and the f-string prints [None]. *)
Definition operand_text (subs : gmap (list N) (list N)) (x : option str) : str :=
  match x with
  | Some x => if is_atomic x then x else default x (subs !! x)
  | None => py "None"
  end.

Definition reject (p : parser) (error : str) : str :=
  let p := append_step p error in
  let p := append_step p (nl ++ py "Not a valid formula in P(v)") in
  join nl (steps p).

(** One pass through the body of [while True]. *)
Inductive outcome :=
| Break
| Return (report : str)
| Next (p : parser) (current_formula : str).

Definition loop_body (p : parser) (current_formula : str) : outcome :=
  if is_atomic current_formula then Break
  else
    let p := append_step p (nl ++ py "Current formula: " ++ current_formula) in
    match find_first_basic_compound (substitutions p) current_formula with
    | None => Return (reject p (py "Error: No valid basic compound formula found"))
    | Some (start, end_, compound) =>
      let p := append_step p (py "Found principal operation " ++ compound) in
      match extract_components compound with
      | None => Return (reject p (py "Error: Invalid formula format in " ++ compound))
      | Some (op, left_, right_) =>
        let '(p, new_atomic) := generate_new_atomic p in
        let p :=
          if (op =? NEG)%N then
            let right_str := operand_text (substitutions p) (Some right_) in
            let form := [LP] ++ [op] ++ right_str ++ [RP] in
            let p := append_step p
              (right_str ++ py " belongs to P(v) => " ++ form ++ py " belongs to P(v)") in
            let p := append_step p
              (py "not. " ++ form ++ py " := " ++ new_atomic ++ py " => "
                 ++ new_atomic ++ py " belongs to P(v)") in
            insert_reverse_step p (new_atomic ++ py " = " ++ form)
          else
            let left_str := operand_text (substitutions p) left_ in
            let right_str := operand_text (substitutions p) (Some right_) in
            let form := [LP] ++ left_str ++ [op] ++ right_str ++ [RP] in
            let p := append_step p
              (left_str ++ py ", " ++ right_str ++ py " belong to P(v) => "
                 ++ form ++ py " belongs to P(v)") in
            let p := append_step p
              (py "not. " ++ form ++ py " := " ++ new_atomic ++ py " => "
                 ++ new_atomic ++ py " belongs to P(v)") in
            insert_reverse_step p (new_atomic ++ py " = " ++ form) in
        let p := store_substitution p compound new_atomic in
        Next p (slice current_formula 0 start ++ new_atomic
                  ++ drop (Z.to_nat end_) current_formula)
      end
    end.

(** [while True]: [inl] is the loop left by [break], [inr] a report
    returned from inside the loop. *)
Fixpoint main_loop (fuel : nat) (p : parser) (current_formula : str)
  : result (parser * str + str) :=
  match fuel with
  | O => OutOfFuel
  | S fuel =>
    match loop_body p current_formula with
    | Break => Ok (inl (p, current_formula))
    | Return report => Ok (inr report)
    | Next p current_formula => main_loop fuel p current_formula
    end
  end.

(** [solve_formula] up to the main loop: [inl] is a report returned by one
    of the two short-circuits, [inr] the state on entry to the loop.  The
    four fields of [self] are reassigned before any of them is read, so the
    state left by an earlier call is no input. *)
Definition prologue (fuel : nat) (original_formula : str)
  : result (str + parser * str) :=
  let formula := remove_spaces original_formula in
  let p := Parser 0 [] ∅ [] in
  let p := append_step p (py "Analyzing formula: " ++ formula ++ nl) in
  let current_formula := formula in
  if is_atomic current_formula then
    let p := append_step p (atomic_fact current_formula) in
    let p := append_step p (nl ++ py "Therefore, this is a well-formed formula.") in
    Ok (inl (join nl (steps p)))
  else if startswith formula LP && endswith formula RP
          && is_atomic (strip_ends formula) then
    let inner := strip_ends formula in
    Ok (inl (reject p (py "Error: Atomic formula " ++ inner
                         ++ py " should not be surrounded by parentheses")))
  else
    p ← scan_atomics fuel formula 0 ∅ p;
    let p := append_step p (nl ++ py "Begin substitutions:") in
    Ok (inr (p, current_formula)).

(** The closing lines that name the input. *)
Definition conclusion (original_formula : str) : list str :=
  [py "we can conclude that " ++ original_formula ++ py " belongs to P(v)";
   py "Therefore, this is a well-formed formula."].

(** [solve_formula] after the main loop. *)
Definition epilogue (p : parser) (current_formula original_formula : str) : str :=
  let p :=
    if is_atomic current_formula then
      let p := append_step p (nl ++ py "Final result: " ++ current_formula) in
      let p := append_step p (nl ++ py "Reverse substitution:") in
      let p := Parser (atomic_counter p) (steps p ++ reverse_steps p)
                      (substitutions p) (reverse_steps p) in
      let p := append_step p
        (nl ++ py "Since " ++ current_formula
            ++ py " belongs to P(v) and following the substitutions backwards,") in
      Parser (atomic_counter p) (steps p ++ conclusion original_formula)
             (substitutions p) (reverse_steps p)
    else append_step p (nl ++ py "Not a valid formula in P(v)") in
  join nl (steps p).

Definition solve_formula (fuel : nat) (original_formula : str) : result str :=
  r ← prologue fuel original_formula;
  match r with
  | inl report => Ok report
  | inr (p, current_formula) =>
    r ← main_loop fuel p current_formula;
    match r with
    | inr report => Ok report
    | inl (p, current_formula) => Ok (epilogue p current_formula original_formula)
    end
  end.

(** The state after [n] reductions of the main loop, when there are that
    many. *)
Fixpoint iterate (n : nat) (p : parser) (current_formula : str)
  : option (parser * str) :=
  match n with
  | O => Some (p, current_formula)
  | S n =>
    match loop_body p current_formula with
    | Next p current_formula => iterate n p current_formula
    | _ => None
    end
  end.

End Solve.

(** * Vocabulary of the properties *)

(** ** Nesting depth *)

(** The number of opening minus the number of closing parentheses. *)
Definition paren_delta (c : N) : Z :=
  if (c =? LP)%N then 1 else if (c =? RP)%N then -1 else 0.

Fixpoint depth (s : list N) : Z :=
  match s with
  | [] => 0
  | c :: s => paren_delta c + depth s
  end.

(** Position [i] of [inner] holds an operator symbol that no parenthesis
    of [inner] encloses. *)
Definition operator_at_depth_zero (inner : list N) (i : nat) : Prop :=
  ∃ c, inner !! i = Some c ∧ is_operator c = true ∧ depth (take i inner) = 0.

(** What [is_basic_compound] asks of an operand. *)
Definition operand `{Unicode} (subs : gmap (list N) (list N)) (p : list N) : Prop :=
  is_atomic p = true ∨ is_Some (subs !! p).

(** The state of the splitting loop after the prefix [pre] of the interior. *)
Definition split_inv (pre : list N) (parts : list (list N)) (paren_count : Z)
    (current : list N) (operator : option N) : Prop :=
  paren_count = depth pre ∧
  match operator with
  | None => parts = [] ∧ current = pre ∧ ∀ i, ¬ operator_at_depth_zero pre i
  | Some op =>
    ∃ l, pre = l ++ op :: current ∧ is_operator op = true ∧ depth l = 0
         ∧ parts = (if bool_decide (l = []) then [] else [l])
         ∧ ∀ i, operator_at_depth_zero pre i → i = length l
  end.

(** The number of opening parentheses of a string. *)
Definition open_parens (s : list N) : nat := length (filter (λ c, c = LP) s).

(** The placeholder minted when the counter becomes [n]. *)
Definition placeholder (n : nat) : list N := py "X" ++ str_of_nat n.

Section Vocabulary.
Context `{U : Unicode}.

(** What the scanner holds as its best span so far. *)
Definition candidate (subs : gmap (list N) (list N)) (formula : list N)
    (compound_start compound_end : Z) : Prop :=
  (compound_start = -1 ∧ compound_end = -1) ∨
  (0 ≤ compound_start < compound_end ∧ compound_end ≤ Z.of_nat (length formula)
   ∧ formula !! Z.to_nat compound_start = Some LP
   ∧ is_basic_compound subs (slice formula compound_start compound_end) = true).

End Vocabulary.

(** What holds of the parser after [n] reductions: the counter is [n],
    every key of the table opens with a parenthesis and every value is a
    placeholder minted so far. *)
Definition engine_inv (n : nat) (p : parser) : Prop :=
  atomic_counter p = n ∧
  ∀ k v, substitutions p !! k = Some v →
    (∃ t, k = LP :: t) ∧ ∃ m, (1 ≤ m ≤ n)%nat ∧ v = placeholder m.

(** [f'] is [f] with space characters inserted. *)
Inductive inserts_spaces : list N → list N → Prop :=
| inserts_nil : inserts_spaces [] []
| inserts_keep c f f' : inserts_spaces f f' → inserts_spaces (c :: f) (c :: f')
| inserts_space f f' : inserts_spaces f f' → inserts_spaces f (SPACE :: f').

(** [p] inside [k] pairs of parentheses. *)
Fixpoint wrap (k : nat) (p : list N) : list N :=
  match k with
  | O => p
  | S k => LP :: wrap k p ++ [RP]
  end.

(** [needle in hay] *)
Fixpoint contains (needle hay : list N) : bool :=
  bool_decide (needle `prefix_of` hay)
  || match hay with
     | [] => false
     | _ :: hay' => contains needle hay'
     end.

(** [P] joined with [n] negated atoms, nested to the left:
    [P], [(P∧(¬P))], [((P∧(¬P))∧(¬P))], ... *)
Fixpoint negation_chain (n : nat) : list N :=
  match n with
  | O => py "P"
  | S n => LP :: negation_chain n ++ py "∧(¬P))"
  end.

(** Reduction [n + 1] of [solve_formula original], observed: the working
    string before it, the span found, what the table binds to the text of
    the span before and after, and the working string after it. *)
Record observation := Observation {
  before : list N;
  found : Z * Z * list N;
  bound_before : option (list N);
  bound_after : option (list N);
  after : list N
}.

Definition observe `{U : Unicode} (fuel n : nat) (original : list N)
  : option observation :=
  match prologue fuel original with
  | Ok (inr (p, cur)) =>
    match iterate n p cur with
    | Some (p1, cur1) =>
      match find_first_basic_compound (substitutions p1) cur1, loop_body p1 cur1 with
      | Some (s, e, compound), Next p2 cur2 =>
        Some (Observation cur1 (s, e, compound) (substitutions p1 !! compound)
                          (substitutions p2 !! compound) cur2)
      | _, _ => None
      end
    | None => None
    end
  | _ => None
  end.

(** The report of the immediate accept. *)
Definition atomic_report (p : list N) : list N :=
  join nl [py "Analyzing formula: " ++ p ++ nl;
           atomic_fact p;
           nl ++ py "Therefore, this is a well-formed formula."].

(** The report that rejects an atom in one pair of parentheses. *)
Definition redundant_report (p : list N) : list N :=
  join nl [py "Analyzing formula: " ++ wrap 1 p ++ nl;
           py "Error: Atomic formula " ++ p
             ++ py " should not be surrounded by parentheses";
           nl ++ py "Not a valid formula in P(v)"].

Example py_connectives : py "(¬∧∨⇒⇔) " = [LP; NEG; AND; OR; IMPL; EQUIV; RP; SPACE].
Proof. reflexivity. Qed.

Example str_of_nat_120 : str_of_nat 120 = py "120".
Proof. reflexivity. Qed.

Example find_first_basic_compound_innermost :
  find_first_basic_compound (U:=ascii_only) ∅ (py "(((P⇒Q)∨S)⇔T)") = Some (2, 7, py "(P⇒Q)").
Proof. vm_compute. reflexivity. Qed.


(** * Properties *)

(** ** Atomic propositions *)

Section Atomic.
Context `{U : Unicode}.

Lemma str_isalpha_singleton c : str_isalpha [c] = isalpha c.
Proof. unfold str_isalpha. simpl. by rewrite andb_true_r. Qed.

Lemma str_isdigit_singleton c : str_isdigit [c] = isdigit c.
Proof. unfold str_isdigit. simpl. by rewrite andb_true_r. Qed.

Lemma str_isdigit_cons c s : str_isdigit (c :: s) = forallb isdigit (c :: s).
Proof. reflexivity. Qed.

Lemma is_atomic_spec s :
  is_atomic s = true ↔
  ∃ c ds, s = c :: ds ∧ isalpha c = true ∧ forallb isdigit ds = true.
Proof.
  destruct s as [|c [|d ds]]; simpl.
  - split; [done | by intros (? & ? & ? & _)].
  - rewrite str_isalpha_singleton. split.
    + intros Hc. by exists c, [].
    + intros (? & ? & [= <- <-] & Hc & _). done.
  - rewrite str_isalpha_singleton, str_isdigit_cons, andb_true_iff. split.
    + intros [Hc Hd]. by exists c, (d :: ds).
    + intros (? & ? & [= <- <-] & Hc & Hd). done.
Qed.

Lemma is_atomic_cons c ds :
  is_atomic (c :: ds) = isalpha c && forallb isdigit ds.
Proof.
  apply eq_true_iff_eq. rewrite is_atomic_spec, andb_true_iff. split.
  - by intros (? & ? & [= <- <-] & ? & ?).
  - intros [? ?]. by exists c, ds.
Qed.

Lemma isalpha_LP : isalpha LP = false.
Proof. by rewrite isalpha_ascii. Qed.
Lemma isalpha_RP : isalpha RP = false.
Proof. by rewrite isalpha_ascii. Qed.
Lemma isdigit_LP : isdigit LP = false.
Proof. by rewrite isdigit_ascii. Qed.
Lemma isdigit_RP : isdigit RP = false.
Proof. by rewrite isdigit_ascii. Qed.
Lemma isalpha_SPACE : isalpha SPACE = false.
Proof. by rewrite isalpha_ascii. Qed.
Lemma isdigit_SPACE : isdigit SPACE = false.
Proof. by rewrite isdigit_ascii. Qed.

(** The characters of an atomic proposition are letters or digits. *)
Lemma is_atomic_alnum s c :
  is_atomic s = true → c ∈ s → isalpha c = true ∨ isdigit c = true.
Proof.
  intros (a & ds & -> & Ha & Hds)%is_atomic_spec [->|Hc]%elem_of_cons; [by left|].
  right. rewrite forallb_forall in Hds. apply Hds. by apply list_elem_of_In.
Qed.

Lemma remove_spaces_id s :
  SPACE ∉ s → remove_spaces s = s.
Proof.
  unfold remove_spaces. induction s as [|c s IH]; [done|].
  intros Hs. apply not_elem_of_cons in Hs as [Hc Hs].
  rewrite filter_cons_True by done. by rewrite IH.
Qed.

Lemma is_atomic_no_space s : is_atomic s = true → SPACE ∉ s.
Proof.
  intros Hs Hin. destruct (is_atomic_alnum _ _ Hs Hin) as [H|H].
  - by rewrite isalpha_SPACE in H.
  - by rewrite isdigit_SPACE in H.
Qed.


Lemma solve_formula_atomic fuel p :
  is_atomic p = true → solve_formula fuel p = Ok (atomic_report p).
Proof.
  intros Hp. unfold solve_formula, prologue.
  rewrite (remove_spaces_id p) by by apply is_atomic_no_space.
  rewrite Hp. reflexivity.
Qed.

End Atomic.

(** ** Strings wrapped in a pair of parentheses *)

Lemma startswith_cons c s x : startswith (c :: s) x = (c =? x)%N.
Proof. reflexivity. Qed.

Lemma startswith_true s x : startswith s x = true ↔ ∃ s', s = x :: s'.
Proof.
  destruct s as [|c s]; simpl.
  - split; [done | by intros [? ?]].
  - rewrite N.eqb_eq. split; [intros ->; eauto | by intros [? [= -> _]]].
Qed.

Lemma endswith_snoc s c x : endswith (s ++ [c]) x = (c =? x)%N.
Proof. unfold endswith. by rewrite last_snoc. Qed.

Lemma endswith_true s x : endswith s x = true ↔ ∃ s', s = s' ++ [x].
Proof.
  destruct s as [|c s _] using rev_ind.
  - split; [done | intros [s' Hs']; by destruct s'].
  - rewrite endswith_snoc, N.eqb_eq. split.
    + intros ->. eauto.
    + intros [s' Hs']. by apply app_inj_tail in Hs' as [_ ->].
Qed.

Lemma strip_ends_wrap a inner b : strip_ends (a :: inner ++ [b]) = inner.
Proof.
  unfold strip_ends. simpl. rewrite length_app, drop_0. simpl.
  replace (length inner + 1 - 1)%nat with (length inner) by lia.
  by rewrite take_app_length.
Qed.

Lemma wrapped_spec s :
  startswith s LP && endswith s RP = true ↔ ∃ inner, s = LP :: inner ++ [RP].
Proof.
  rewrite andb_true_iff, startswith_true, endswith_true. split.
  - intros [[s1 ->] [s2 Hs2]]. destruct s2 as [|c s2]; simpl in Hs2.
    + by injection Hs2.
    + injection Hs2 as <- ->. eauto.
  - intros [inner ->]. split; [eauto|]. by exists (LP :: inner).
Qed.

Lemma wrapped_false s :
  startswith s LP && endswith s RP = false ↔ ∀ inner, s ≠ LP :: inner ++ [RP].
Proof.
  rewrite <-not_true_iff_false, wrapped_spec. split.
  - intros Hno inner Heq. apply Hno. eauto.
  - intros Hno [inner Heq]. by apply (Hno inner).
Qed.

Section Negation.
Context `{U : Unicode}.

Lemma is_valid_negation_unwrapped s :
  (∀ inner, s ≠ LP :: inner ++ [RP]) → is_valid_negation s = true.
Proof.
  intros Hs%wrapped_false. unfold is_valid_negation. by rewrite Hs.
Qed.

Lemma is_valid_negation_wrapped inner :
  is_valid_negation (LP :: inner ++ [RP]) =
  if startswith inner NEG then
    let after_neg := drop 1 inner in
    if is_atomic after_neg then true
    else if startswith after_neg LP then
      negb (is_atomic (if endswith after_neg RP then strip_ends after_neg else after_neg))
    else false
  else true.
Proof.
  unfold is_valid_negation.
  assert (startswith (LP :: inner ++ [RP]) LP && endswith (LP :: inner ++ [RP]) RP = true)
    as -> by (apply wrapped_spec; eauto).
  rewrite strip_ends_wrap. destruct (startswith inner NEG); [|done]. simpl.
  destruct (is_atomic (drop 1 inner)); [done|].
  destruct (startswith (drop 1 inner) LP); [|done].
  by destruct (is_atomic _).
Qed.

Lemma is_valid_negation_other inner :
  startswith inner NEG = false → is_valid_negation (LP :: inner ++ [RP]) = true.
Proof. intros H. by rewrite is_valid_negation_wrapped, H. Qed.

Lemma is_atomic_LP s : is_atomic (LP :: s) = false.
Proof. by rewrite is_atomic_cons, isalpha_LP. Qed.

Lemma is_valid_negation_neg a :
  is_valid_negation (LP :: (NEG :: a) ++ [RP]) = true ↔
  is_atomic a = true ∨
  ((∃ b, a = LP :: b) ∧ ∀ q, a = LP :: q ++ [RP] → is_atomic q = false).
Proof.
  rewrite is_valid_negation_wrapped. simpl. rewrite drop_0.
  destruct (is_atomic a) eqn:Ha; [naive_solver|].
  destruct (startswith a LP) eqn:Hs.
  - apply startswith_true in Hs as [b ->]. rewrite negb_true_iff.
    destruct (endswith (LP :: b) RP) eqn:He.
    + apply endswith_true in He as [s' Hs'].
      destruct s' as [|c q]; simplify_eq/=. rewrite strip_ends_wrap. split.
      * intros Hq. right. split; [eauto|]. intros q' [= Hq']. by simplify_list_eq.
      * intros [?|[_ Hq]]; [done|]. by apply Hq.
    + split; [|done]. intros _. right. split; [eauto|].
      intros q [= ->]. by rewrite (app_comm_cons), endswith_snoc in He.
  - split; [done|]. intros [?|[[b ->] _]]; done.
Qed.

End Negation.

Lemma depth_app s t : depth (s ++ t) = depth s + depth t.
Proof. induction s as [|c s IH]; simpl; lia. Qed.

Lemma depth_snoc s c : depth (s ++ [c]) = depth s + paren_delta c.
Proof. rewrite depth_app. simpl. lia. Qed.

Lemma is_operator_true c : is_operator c = true ↔ c ∈ operators.
Proof. apply bool_decide_eq_true. Qed.

Lemma operator_not_paren c : is_operator c = true → c ≠ LP ∧ c ≠ RP.
Proof.
  rewrite is_operator_true. unfold operators. intros Hc.
  repeat (apply elem_of_cons in Hc as [->|Hc]; [done|]).
  by apply elem_of_nil in Hc.
Qed.

Lemma paren_delta_operator c : is_operator c = true → paren_delta c = 0.
Proof.
  intros [H1 H2]%operator_not_paren. unfold paren_delta.
  by rewrite (proj2 (N.eqb_neq _ _) H1), (proj2 (N.eqb_neq _ _) H2).
Qed.

Lemma is_operator_LP : is_operator LP = false.
Proof. reflexivity. Qed.
Lemma is_operator_RP : is_operator RP = false.
Proof. reflexivity. Qed.
Lemma is_operator_NEG : is_operator NEG = true.
Proof. reflexivity. Qed.

Lemma operator_at_depth_zero_snoc pre c i :
  operator_at_depth_zero (pre ++ [c]) i ↔
  operator_at_depth_zero pre i ∨
  (i = length pre ∧ is_operator c = true ∧ depth pre = 0).
Proof.
  unfold operator_at_depth_zero. split.
  - intros (x & Hx & Hop & Hd).
    destruct (decide (i < length pre)%nat) as [Hlt|Hge].
    + left. exists x. rewrite lookup_app_l in Hx by done.
      rewrite take_app_le in Hd by lia. done.
    + right. assert (i = length pre) as ->.
      { apply lookup_lt_Some in Hx. rewrite length_app in Hx. simpl in Hx. lia. }
      rewrite list_lookup_middle in Hx by done. simplify_eq.
      rewrite take_app_length in Hd. done.
  - intros [(x & Hx & Hop & Hd)|(-> & Hop & Hd)].
    + exists x. pose proof (lookup_lt_Some _ _ _ Hx).
      rewrite lookup_app_l by done. rewrite take_app_le by lia. done.
    + exists c. rewrite list_lookup_middle by done. by rewrite take_app_length.
Qed.

Lemma operator_at_depth_zero_nil i : ¬ operator_at_depth_zero [] i.
Proof. by intros (c & Hc & _). Qed.

Section Split.
Context `{U : Unicode}.


Lemma split_inv_push pre parts pc current operator c :
  split_inv pre parts pc current operator →
  (is_operator c && (depth pre =? 0) = false) →
  split_inv (pre ++ [c]) parts (pc + paren_delta c) (current ++ [c]) operator.
Proof.
  intros [-> Hinv] Hc. split; [by rewrite depth_snoc|].
  assert (∀ i, operator_at_depth_zero (pre ++ [c]) i → operator_at_depth_zero pre i)
    as Hold.
  { intros i [?|(_ & Hop & Hd)]%operator_at_depth_zero_snoc; [done|].
    rewrite Hop, Hd in Hc. done. }
  destruct operator as [op|].
  - destruct Hinv as (l & -> & Hop & Hl & Hparts & Hone).
    exists l. split_and!; [by rewrite <-app_assoc|done..|naive_solver].
  - destruct Hinv as (-> & -> & Hnone). split_and!; [done..|naive_solver].
Qed.

Lemma split_parts_inv inner pre parts pc current operator parts' current' operator' :
  split_parts inner parts pc current operator = Some (parts', current', operator') →
  split_inv pre parts pc current operator →
  split_inv (pre ++ inner) parts' (depth (pre ++ inner)) current' operator'.
Proof.
  revert pre parts pc current operator.
  induction inner as [|c inner IH]; intros pre parts pc current operator; simpl.
  - intros [= <- <- <-] Hinv. rewrite app_nil_r. destruct Hinv as [-> ?]. by split.
  - replace (pre ++ c :: inner) with ((pre ++ [c]) ++ inner) by by rewrite <-app_assoc.
    destruct (c =? LP)%N eqn:HLP.
    { intros Hsp Hinv. apply (IH _ _ _ _ _ Hsp).
      apply N.eqb_eq in HLP as ->.
      by apply (split_inv_push _ _ _ _ _ LP Hinv). }
    destruct (c =? RP)%N eqn:HRP.
    { intros Hsp Hinv. apply (IH _ _ _ _ _ Hsp).
      apply N.eqb_eq in HRP as ->.
      by apply (split_inv_push _ _ _ _ _ RP Hinv). }
    assert (paren_delta c = 0) as Hdelta by (unfold paren_delta; by rewrite HLP, HRP).
    destruct (is_operator c && (pc =? 0)) eqn:Hop.
    + apply andb_true_iff in Hop as [Hop Hpc%Z.eqb_eq].
      destruct operator as [op|]; [done|].
      intros Hsp [-> (-> & -> & Hnone)]. apply (IH _ _ _ _ _ Hsp).
      split; [rewrite depth_snoc; lia|].
      exists pre. split_and!; [done..|].
      intros i [?|(-> & _)]%operator_at_depth_zero_snoc; [by apply Hnone in H|done].
    + intros Hsp Hinv. apply (IH _ _ _ _ _ Hsp).
      replace pc with (pc + paren_delta c) by lia.
      apply split_inv_push; [done|]. by destruct Hinv as [<- _].
Qed.

(** The shape of a span that [is_basic_compound] accepts through its
    splitting loop. *)
Lemma is_basic_compound_binary subs s :
  is_basic_compound subs s = true →
  startswith (strip_ends s) NEG = false →
  ∃ l op r,
    s = LP :: (l ++ op :: r) ++ [RP]
    ∧ is_operator op = true
    ∧ l ≠ [] ∧ r ≠ []
    ∧ depth l = 0
    ∧ (∀ i, operator_at_depth_zero (l ++ op :: r) i → i = length l)
    ∧ operand subs l ∧ operand subs r.
Proof.
  unfold is_basic_compound.
  destruct (startswith s LP && endswith s RP) eqn:Hw; [|done]. simpl.
  apply wrapped_spec in Hw as [inner ->]. rewrite strip_ends_wrap.
  intros Hb Hneg. rewrite Hneg in Hb.
  destruct (split_parts inner [] 0 [] None) as [[[parts current] operator]|] eqn:Hsp;
    [|done].
  apply (split_parts_inv _ []) in Hsp; [|by split_and!; auto using operator_at_depth_zero_nil].
  simpl in Hsp. destruct Hsp as [_ Hinv].
  destruct operator as [op|]; [|by rewrite orb_true_r in Hb].
  rewrite orb_false_r in Hb.
  destruct Hinv as (l & -> & Hop & Hl & -> & Hone).
  exists l, op, current.
  assert (operand_ok : ∀ p, is_atomic p || in_substitutions subs p = true → operand subs p).
  { intros p [?|?%bool_decide_eq_true]%orb_true_iff; [by left|by right]. }
  destruct l as [|a l], current as [|b current]; simpl in Hb; try done.
  rewrite !andb_true_iff in Hb. destruct Hb as (Hl' & Hr' & _).
  split_and!; auto.
Qed.

Lemma is_basic_compound_wrapped subs s :
  is_basic_compound subs s = true → ∃ inner, s = LP :: inner ++ [RP].
Proof.
  unfold is_basic_compound.
  destruct (startswith s LP && endswith s RP) eqn:Hw; [|done].
  intros _. by apply wrapped_spec.
Qed.

(** A basic compound contains an operator symbol. *)
Lemma is_basic_compound_operator subs s :
  is_basic_compound subs s = true → ∃ c, c ∈ s ∧ is_operator c = true.
Proof.
  intros Hb. destruct (startswith (strip_ends s) NEG) eqn:Hneg.
  - apply is_basic_compound_wrapped in Hb as [inner ->].
    rewrite strip_ends_wrap in Hneg. apply startswith_true in Hneg as [a ->].
    exists NEG. split; [set_solver|done].
  - apply is_basic_compound_binary in Hb as (l & op & r & -> & Hop & _); [|done].
    exists op. split; [set_solver|done].
Qed.

End Split.

(** ** The matching parenthesis *)

Lemma find_subformula_end_loop_range rest i count :
  let r := find_subformula_end_loop rest i count in
  r = -1 ∨ i ≤ r < i + Z.of_nat (length rest).
Proof.
  revert i count. induction rest as [|c rest IH]; intros i count; simpl; [by left|].
  repeat case_match; try (destruct (IH (i + 1) (count + 1)) as [->|?]; [by left|right; lia]);
    try (destruct (IH (i + 1) (count - 1)) as [->|?]; [by left|right; lia]);
    try (destruct (IH (i + 1) count) as [->|?]; [by left|right; lia]).
  right. lia.
Qed.

Lemma find_subformula_end_range formula start :
  0 ≤ start →
  let r := find_subformula_end formula start in
  r = -1 ∨ start + 1 ≤ r < Z.of_nat (length formula).
Proof.
  intros Hstart. unfold find_subformula_end.
  destruct (find_subformula_end_loop_range
              (drop (Z.to_nat (start + 1)) formula) (start + 1) 1) as [?|Hr]; [by left|].
  right. rewrite length_drop in Hr. lia.
Qed.

(** ** Counting opening parentheses *)

Lemma open_parens_app s t : open_parens (s ++ t) = (open_parens s + open_parens t)%nat.
Proof. unfold open_parens. by rewrite filter_app, length_app. Qed.

Lemma open_parens_cons_LP s : open_parens (LP :: s) = S (open_parens s).
Proof. reflexivity. Qed.

Lemma open_parens_le_length s : (open_parens s ≤ length s)%nat.
Proof. apply length_filter. Qed.

Lemma open_parens_zero s : LP ∉ s → open_parens s = 0%nat.
Proof.
  unfold open_parens. induction s as [|c s IH]; [done|].
  intros [Hc Hs]%not_elem_of_cons. rewrite filter_cons_False by done. auto.
Qed.

Lemma chars_of_uint_digits d c :
  c ∈ chars_of_uint d → (48 ≤ c ≤ 57)%N.
Proof.
  induction d; simpl; intros Hc; try (by apply elem_of_nil in Hc);
    apply elem_of_cons in Hc as [->|Hc]; auto; lia.
Qed.

Lemma placeholder_no_LP n : LP ∉ placeholder n.
Proof.
  unfold placeholder. intros [Hc|Hc]%elem_of_app.
  - apply list_elem_of_singleton in Hc. done.
  - apply chars_of_uint_digits in Hc. unfold LP in Hc. lia.
Qed.

Lemma open_parens_placeholder n : open_parens (placeholder n) = 0%nat.
Proof. apply open_parens_zero, placeholder_no_LP. Qed.

Lemma slice_0 s j : slice s 0 j = take (Z.to_nat j) s.
Proof. unfold slice. simpl. by rewrite Nat.sub_0_r. Qed.

Lemma take_slice_drop s i j :
  0 ≤ i ≤ j → s = take (Z.to_nat i) s ++ slice s i j ++ drop (Z.to_nat j) s.
Proof.
  intros Hij. unfold slice.
  rewrite <-(take_drop (Z.to_nat i) s) at 1. f_equal.
  rewrite <-(take_drop (Z.to_nat j - Z.to_nat i) (drop (Z.to_nat i) s)) at 1. f_equal.
  rewrite drop_drop. f_equal. lia.
Qed.

Lemma slice_length s i j :
  0 ≤ i ≤ j → j ≤ Z.of_nat (length s) → length (slice s i j) = Z.to_nat (j - i).
Proof.
  intros Hij Hj. unfold slice. rewrite length_take, length_drop. lia.
Qed.

Lemma slice_head s i j c :
  0 ≤ i < j → s !! Z.to_nat i = Some c → ∃ t, slice s i j = c :: t.
Proof.
  intros Hij Hc. unfold slice.
  rewrite (drop_S _ _ _ Hc).
  destruct (Z.to_nat j - Z.to_nat i)%nat as [|k] eqn:Hk; [lia|]. simpl. eauto.
Qed.

Section Scanner.
Context `{U : Unicode}.

(** ** The span that the scanner returns *)


Lemma find_first_loop_candidate subs formula rest i ml cs ce cl :
  0 ≤ i → drop (Z.to_nat i) formula = rest →
  candidate subs formula cs ce →
  candidate subs formula (find_first_loop subs formula rest i ml cs ce cl).1
                         (find_first_loop subs formula rest i ml cs ce cl).2.
Proof.
  revert i ml cs ce cl. induction rest as [|c rest IH]; intros i ml cs ce cl Hi Hrest Hc;
    simpl; [done|].
  assert (formula !! Z.to_nat i = Some c) as Hlook.
  { rewrite <-(Nat.add_0_r (Z.to_nat i)), <-lookup_drop, Hrest. done. }
  assert (drop (Z.to_nat (i + 1)) formula = rest) as Hrest'.
  { replace (Z.to_nat (i + 1)) with (S (Z.to_nat i)) by lia.
    rewrite (drop_S _ _ _ Hlook) in Hrest. by simplify_eq. }
  destruct (c =? LP)%N eqn:HLP.
  - apply N.eqb_eq in HLP as ->.
    destruct (ml <=? cl + 1); [|by apply IH; try lia].
    pose proof (find_subformula_end_range formula i Hi) as Hend. simpl in Hend.
    destruct (negb (find_subformula_end formula i =? -1)) eqn:Hne; [|by apply IH; try lia].
    apply negb_true_iff, Z.eqb_neq in Hne. destruct Hend as [?|Hend]; [done|].
    destruct (is_basic_compound subs _) eqn:Hb; [|by apply IH; try lia].
    apply IH; [lia|done|]. right. split_and!; try done; lia.
  - destruct (c =? RP)%N; by apply IH; try lia.
Qed.

Lemma find_first_basic_compound_Some subs formula s e compound :
  find_first_basic_compound subs formula = Some (s, e, compound) →
  0 ≤ s < e ∧ e ≤ Z.of_nat (length formula)
  ∧ formula !! Z.to_nat s = Some LP
  ∧ compound = slice formula s e
  ∧ is_basic_compound subs compound = true.
Proof.
  unfold find_first_basic_compound.
  assert (candidate subs formula (-1) (-1)) as Hc by by left.
  apply (find_first_loop_candidate subs formula formula 0 0 (-1) (-1) 0) in Hc; [|done..].
  destruct (find_first_loop _ _ _ _ _ _ _ _) as [cs ce]. simpl in Hc.
  destruct (negb (cs =? -1) && negb (ce =? -1)) eqn:Hne; [|done].
  intros [= <- <- <-].
  apply andb_true_iff in Hne as [Hs%negb_true_iff%Z.eqb_neq He%negb_true_iff%Z.eqb_neq].
  destruct Hc as [[? ?]|(? & ? & ? & ?)]; [done|]. split_and!; try done; lia.
Qed.

(** A formula without operator symbols has no basic compound. *)
Lemma find_first_basic_compound_no_operator subs formula :
  (∀ c, c ∈ formula → is_operator c = false) →
  find_first_basic_compound subs formula = None.
Proof.
  intros Hno. destruct (find_first_basic_compound subs formula) as [[[s e] compound]|] eqn:Hf;
    [|done].
  apply find_first_basic_compound_Some in Hf as (_ & _ & _ & -> & Hb).
  apply is_basic_compound_operator in Hb as (c & Hc & Hop).
  rewrite Hno in Hop; [done|].
  unfold slice in Hc. by apply subseteq_take, subseteq_drop in Hc.
Qed.

(** ** One reduction *)

Lemma loop_body_Next p cur p2 cur2 :
  loop_body p cur = Next p2 cur2 →
  ∃ s e compound,
    is_atomic cur = false
    ∧ find_first_basic_compound (substitutions p) cur = Some (s, e, compound)
    ∧ atomic_counter p2 = S (atomic_counter p)
    ∧ substitutions p2 = <[compound := placeholder (S (atomic_counter p))]> (substitutions p)
    ∧ cur2 = take (Z.to_nat s) cur ++ placeholder (S (atomic_counter p))
                  ++ drop (Z.to_nat e) cur.
Proof.
  unfold loop_body. destruct (is_atomic cur); [done|].
  cbn [substitutions append_step].
  destruct (find_first_basic_compound (substitutions p) cur) as [[[s e] compound]|]; [|done].
  destruct (extract_components compound) as [[[op l] r]|]; [|done].
  cbn [generate_new_atomic atomic_counter].
  intros [= <- <-]. exists s, e, compound. rewrite slice_0.
  split_and!; try done; by destruct (op =? NEG)%N.
Qed.

Lemma loop_body_open_parens p cur p2 cur2 :
  loop_body p cur = Next p2 cur2 → (open_parens cur2 < open_parens cur)%nat.
Proof.
  intros (s & e & compound & _ & Hf & _ & _ & ->)%loop_body_Next.
  apply find_first_basic_compound_Some in Hf as (Hse & He & HLP & -> & _).
  rewrite (take_slice_drop cur s e) at 3 by lia.
  rewrite !open_parens_app, open_parens_placeholder.
  destruct (slice_head cur s e LP) as [t ->]; [lia|done|].
  rewrite open_parens_cons_LP. lia.
Qed.

End Scanner.

(** ** The loops finish *)

Lemma index_Ok s i :
  0 ≤ i < Z.of_nat (length s) → ∃ c, index s i = Ok c ∧ s !! Z.to_nat i = Some c.
Proof.
  intros Hi. unfold index.
  destruct (i <? 0) eqn:Hneg; [lia|].
  destruct (lookup_lt_is_Some_2 s (Z.to_nat i)) as [c Hc]; [lia|].
  rewrite Hc. eauto.
Qed.

Section Termination.
Context `{U : Unicode}.

Lemma scan_digits_Ok fuel formula j :
  0 ≤ j ≤ Z.of_nat (length formula) →
  Z.of_nat (length formula) - j < Z.of_nat fuel →
  ∃ j', scan_digits fuel formula j = Ok j' ∧ j ≤ j' ≤ Z.of_nat (length formula).
Proof.
  revert j. induction fuel as [|fuel IH]; intros j Hj Hfuel; [lia|]. simpl.
  destruct (j <? Z.of_nat (length formula)) eqn:Hlt; [|exists j; split; [done|lia]].
  apply Z.ltb_lt in Hlt. destruct (index_Ok formula j) as (c & -> & _); [lia|]. simpl.
  destruct (str_isdigit [c]); [|exists j; split; [done|lia]].
  destruct (IH (j + 1)) as (j' & -> & ?); [lia..|]. exists j'. split; [done|lia].
Qed.

Lemma scan_atomics_Ok fuel formula i atomic_vars p :
  0 ≤ i ≤ Z.of_nat (length formula) →
  Z.of_nat (length formula) - i < Z.of_nat fuel →
  ∃ p', scan_atomics fuel formula i atomic_vars p = Ok p'
        ∧ atomic_counter p' = atomic_counter p
        ∧ substitutions p' = substitutions p
        ∧ reverse_steps p' = reverse_steps p.
Proof.
  revert i atomic_vars p.
  induction fuel as [|fuel IH]; intros i atomic_vars p Hi Hfuel; [lia|]. simpl.
  destruct (i <? Z.of_nat (length formula)) eqn:Hlt; [|by exists p].
  apply Z.ltb_lt in Hlt. destruct (index_Ok formula i) as (c & -> & _); [lia|]. simpl.
  destruct (str_isalpha [c]); [|apply IH; lia].
  destruct (scan_digits_Ok fuel formula (i + 1)) as (j & -> & Hj); [lia..|]. simpl.
  destruct (is_atomic _ && _).
  - destruct (IH j ({[slice formula i j]} ∪ atomic_vars)
                (append_step p (atomic_fact (slice formula i j))))
      as (p' & -> & ? & ? & ?); [lia..|].
    by exists p'.
  - apply IH; lia.
Qed.

Lemma remove_spaces_length s : (length (remove_spaces s) ≤ length s)%nat.
Proof. apply length_filter. Qed.

Lemma prologue_Ok fuel original :
  (length original < fuel)%nat →
  (∃ report, prologue fuel original = Ok (inl report)) ∨
  (∃ p, prologue fuel original = Ok (inr (p, remove_spaces original))
        ∧ atomic_counter p = 0%nat ∧ substitutions p = ∅).
Proof.
  intros Hfuel. unfold prologue.
  destruct (is_atomic (remove_spaces original)); [left; eauto|].
  destruct (_ && is_atomic _); [left; eauto|]. right.
  pose proof (remove_spaces_length original).
  edestruct (scan_atomics_Ok fuel (remove_spaces original) 0) as (p' & -> & ? & ? & ?);
    [lia..|].
  cbn [atomic_counter substitutions append_step] in *.
  simpl. eexists. split; [done|]. by cbn [atomic_counter substitutions append_step].
Qed.

Lemma main_loop_Ok fuel p cur :
  (open_parens cur < fuel)%nat → ∃ r, main_loop fuel p cur = Ok r.
Proof.
  revert p cur. induction fuel as [|fuel IH]; intros p cur Hfuel; [lia|]. simpl.
  destruct (loop_body p cur) as [|report|p2 cur2] eqn:Hbody; [eauto..|].
  apply loop_body_open_parens in Hbody. apply IH. lia.
Qed.

(** More fuel does not change a result. *)
Lemma scan_digits_mono fuel fuel' formula j r :
  scan_digits fuel formula j = Ok r → (fuel ≤ fuel')%nat →
  scan_digits fuel' formula j = Ok r.
Proof.
  revert fuel' j. induction fuel as [|fuel IH]; intros fuel' j; [done|].
  destruct fuel' as [|fuel']; [lia|]. simpl. intros Hr Hle.
  destruct (j <? _); [|done].
  destruct (index formula j) as [c| |]; simpl in *; [|done..].
  destruct (str_isdigit [c]); [|done]. apply IH; [done|lia].
Qed.

Lemma scan_atomics_mono fuel fuel' formula i atomic_vars p r :
  scan_atomics fuel formula i atomic_vars p = Ok r → (fuel ≤ fuel')%nat →
  scan_atomics fuel' formula i atomic_vars p = Ok r.
Proof.
  revert fuel' i atomic_vars p. induction fuel as [|fuel IH]; intros fuel' i vars p; [done|].
  destruct fuel' as [|fuel']; [lia|]. simpl. intros Hr Hle.
  destruct (i <? _); [|done].
  destruct (index formula i) as [c| |]; simpl in *; [|done..].
  destruct (str_isalpha [c]); [|apply IH; [done|lia]].
  destruct (scan_digits fuel formula (i + 1)) as [j| |] eqn:Hj; simpl in *; [|done..].
  rewrite (scan_digits_mono fuel fuel' _ _ _ Hj) by lia. simpl.
  destruct (is_atomic _ && _); (apply IH; [done|lia]).
Qed.

Lemma main_loop_mono fuel fuel' p cur r :
  main_loop fuel p cur = Ok r → (fuel ≤ fuel')%nat → main_loop fuel' p cur = Ok r.
Proof.
  revert fuel' p cur. induction fuel as [|fuel IH]; intros fuel' p cur; [done|].
  destruct fuel' as [|fuel']; [lia|]. simpl. intros Hr Hle.
  destruct (loop_body p cur); [done..|]. apply IH; [done|lia].
Qed.

Lemma solve_formula_mono fuel fuel' original report :
  solve_formula fuel original = Ok report → (fuel ≤ fuel')%nat →
  solve_formula fuel' original = Ok report.
Proof.
  unfold solve_formula, prologue. intros Hr Hle.
  destruct (is_atomic (remove_spaces original)); [done|].
  destruct (_ && is_atomic _); [done|].
  destruct (scan_atomics fuel _ _ _ _) as [p| |] eqn:Hscan; simpl in *; [|done..].
  rewrite (scan_atomics_mono fuel fuel' _ _ _ _ _ Hscan) by lia. simpl.
  destruct (main_loop fuel _ _) as [r| |] eqn:Hloop; simpl in *; [|done..].
  by rewrite (main_loop_mono fuel fuel' _ _ _ Hloop) by lia.
Qed.

Lemma solve_formula_Ok fuel original :
  (length original < fuel)%nat → ∃ report, solve_formula fuel original = Ok report.
Proof.
  intros Hfuel. unfold solve_formula.
  destruct (prologue_Ok fuel original Hfuel) as [[report ->]|(p & -> & _)]; simpl; [eauto|].
  pose proof (remove_spaces_length original).
  pose proof (open_parens_le_length (remove_spaces original)).
  destruct (main_loop_Ok fuel p (remove_spaces original)) as [r ->]; [lia|]. simpl.
  destruct r as [[p' cur']|report]; eauto.
Qed.

End Termination.

(** ** Placeholders *)

Lemma chars_of_uint_inj d d' : chars_of_uint d = chars_of_uint d' → d = d'.
Proof.
  revert d'. induction d; intros d'; destruct d'; simpl; intros Heq;
    try discriminate; try done; injection Heq as Heq; f_equal; auto.
Qed.

Lemma placeholder_inj m m' : placeholder m = placeholder m' → m = m'.
Proof.
  unfold placeholder, str_of_nat. intros Heq%app_inv_head%chars_of_uint_inj.
  by apply Unsigned.to_uint_inj.
Qed.

Lemma placeholder_length m : (m < 100)%nat → (length (placeholder m) ≤ 3)%nat.
Proof.
  intros Hm.
  assert (forallb (λ m, length (placeholder m) <=? 3)%nat (seq 0 100) = true) as Hall
    by (vm_compute; reflexivity).
  rewrite forallb_forall in Hall. apply Nat.leb_le, Hall, in_seq. lia.
Qed.

Section Invariant.
Context `{U : Unicode}.

Lemma scan_atomics_fields fuel formula i atomic_vars p p' :
  scan_atomics fuel formula i atomic_vars p = Ok p' →
  atomic_counter p' = atomic_counter p ∧ substitutions p' = substitutions p.
Proof.
  revert i atomic_vars p. induction fuel as [|fuel IH]; intros i vars p; [done|]. simpl.
  destruct (i <? _); [|by intros [= ->]].
  destruct (index formula i) as [c| |]; simpl; [|done..].
  destruct (str_isalpha [c]); [|apply IH].
  destruct (scan_digits fuel formula (i + 1)) as [j| |]; simpl; [|done..].
  destruct (is_atomic _ && _); [|apply IH].
  intros Hp'%IH. done.
Qed.

Lemma prologue_inr fuel original p cur :
  prologue fuel original = Ok (inr (p, cur)) →
  cur = remove_spaces original ∧ engine_inv 0 p.
Proof.
  unfold prologue.
  destruct (is_atomic (remove_spaces original)); [done|].
  destruct (_ && is_atomic _); [done|].
  destruct (scan_atomics fuel _ _ _ _) as [p'| |] eqn:Hscan; simpl; [|done..].
  intros [= <- <-]. apply scan_atomics_fields in Hscan as [Hc Hs].
  unfold engine_inv. cbn [atomic_counter substitutions append_step] in *.
  split; [done|]. split; [done|]. intros k v. by rewrite Hs, lookup_empty.
Qed.

Lemma loop_body_inv n p cur p2 cur2 :
  engine_inv n p → loop_body p cur = Next p2 cur2 → engine_inv (S n) p2.
Proof.
  intros [Hn Hsubs] (s & e & compound & _ & Hf & Hc & Hs & _)%loop_body_Next.
  split; [lia|]. intros k v. rewrite Hs, lookup_insert.
  case_decide as Hk.
  - intros [= <-]. subst k. split.
    + apply find_first_basic_compound_Some in Hf as (_ & _ & _ & _ & Hb).
      apply is_basic_compound_wrapped in Hb as [inner ->]. eauto.
    + exists (S n). rewrite Hn. split; [lia|done].
  - intros [Hkey (m & Hm & ->)]%Hsubs. split; [done|]. exists m. split; [lia|done].
Qed.

Lemma iterate_inv n0 n p cur p1 cur1 :
  engine_inv n0 p → iterate n p cur = Some (p1, cur1) → engine_inv (n0 + n) p1.
Proof.
  revert n0 p cur. induction n as [|n IH]; intros n0 p cur Hinv; simpl.
  - intros [= <- <-]. by rewrite Nat.add_0_r.
  - destruct (loop_body p cur) as [| |p2 cur2] eqn:Hbody; [done..|].
    intros Hit. replace (n0 + S n)%nat with (S n0 + n)%nat by lia.
    eapply IH; [|done]. by eapply loop_body_inv.
Qed.

Lemma reachable_inv fuel original p cur n p1 cur1 :
  prologue fuel original = Ok (inr (p, cur)) →
  iterate n p cur = Some (p1, cur1) → engine_inv n p1.
Proof.
  intros [_ Hinv]%prologue_inr Hit. by apply (iterate_inv 0 n p cur p1 cur1).
Qed.

(** The main loop stops after at most as many reductions as the working
    string has opening parentheses. *)
Lemma iterate_stops p cur :
  ∃ n p1 cur1,
    (n ≤ open_parens cur)%nat ∧ iterate n p cur = Some (p1, cur1)
    ∧ (loop_body p1 cur1 = Break ∨ ∃ report, loop_body p1 cur1 = Return report).
Proof.
  remember (open_parens cur) as k eqn:Hk. revert p cur Hk.
  induction (lt_wf k) as [k _ IH]. intros p cur ->.
  destruct (loop_body p cur) as [|report|p2 cur2] eqn:Hbody.
  - exists 0%nat, p, cur. split_and!; [lia|done|by left].
  - exists 0%nat, p, cur. split_and!; [lia|done|right; eauto].
  - pose proof (loop_body_open_parens _ _ _ _ Hbody) as Hlt.
    destruct (IH _ Hlt p2 cur2 eq_refl) as (n & p1 & cur1 & Hn & Hit & Hstop).
    exists (S n), p1, cur1. split_and!; [lia| |done]. simpl. by rewrite Hbody.
Qed.

(** ** The shape of a negation compound *)

Lemma is_basic_compound_negation subs s :
  is_basic_compound subs s = true →
  startswith (strip_ends s) NEG = true →
  ∃ a, s = LP :: (NEG :: a) ++ [RP] ∧ operand subs a.
Proof.
  intros Hb Hneg. pose proof Hb as [inner ->]%is_basic_compound_wrapped.
  unfold is_basic_compound in Hb.
  assert (startswith (LP :: inner ++ [RP]) LP && endswith (LP :: inner ++ [RP]) RP = true)
    as Hw by (apply wrapped_spec; eauto).
  rewrite Hw in Hb. simpl in Hb. rewrite strip_ends_wrap in *. rewrite Hneg in Hb.
  apply startswith_true in Hneg as [a ->]. simpl in Hb. rewrite drop_0 in Hb.
  exists a. split; [done|].
  apply orb_true_iff in Hb as [?|?%bool_decide_eq_true]; [by left|by right].
Qed.

Lemma operand_nonempty subs a :
  (∀ k, is_Some (subs !! k) → k ≠ []) → operand subs a → a ≠ [].
Proof.
  intros Hkeys [(c & ds & -> & _)%is_atomic_spec|Hkey]; [done|by apply Hkeys].
Qed.

Lemma is_basic_compound_length subs s :
  (∀ k, is_Some (subs !! k) → k ≠ []) →
  is_basic_compound subs s = true → (4 ≤ length s)%nat.
Proof.
  intros Hkeys Hb. destruct (startswith (strip_ends s) NEG) eqn:Hneg.
  - apply is_basic_compound_negation in Hb as (a & -> & Ha); [|done].
    apply (operand_nonempty _ _ Hkeys) in Ha. destruct a; [done|].
    simpl. rewrite length_app. simpl. lia.
  - apply is_basic_compound_binary in Hb as (l & op & r & -> & _ & Hl & Hr & _); [|done].
    destruct l, r; try done. simpl. rewrite !length_app. simpl. lia.
Qed.

Lemma engine_inv_keys n p :
  engine_inv n p → ∀ k, is_Some (substitutions p !! k) → k ≠ [].
Proof. intros [_ Hsubs] k [v [[t ->] _]%Hsubs]. done. Qed.

Lemma loop_body_length n p cur p2 cur2 :
  engine_inv n p → loop_body p cur = Next p2 cur2 → (n < 99)%nat →
  (length cur2 < length cur)%nat.
Proof.
  intros Hinv (s & e & compound & _ & Hf & _ & _ & ->)%loop_body_Next Hn.
  destruct Hinv as [Hc Hsubs].
  apply find_first_basic_compound_Some in Hf as (Hse & He & _ & -> & Hb).
  apply is_basic_compound_length in Hb; [|by eapply engine_inv_keys].
  rewrite slice_length in Hb by lia.
  pose proof (placeholder_length (S (atomic_counter p))) as Hlen.
  rewrite !length_app, length_take, length_drop. lia.
Qed.

End Invariant.

Lemma bind_Ok {A B} (a : A) (k : A → result B) : (Ok a ≫= k) = k a.
Proof. reflexivity. Qed.

(** ** Inserted spaces *)

Lemma remove_spaces_inserts f f' :
  inserts_spaces f f' → remove_spaces f' = remove_spaces f.
Proof.
  unfold remove_spaces. induction 1 as [|c f f' _ IH|f f' _ IH]; [done| |].
  - destruct (decide (c ≠ SPACE)).
    + by rewrite !filter_cons_True, IH by done.
    + by rewrite !filter_cons_False by done.
  - rewrite filter_cons_False; [done|]. by intros [].
Qed.

Section Spaces.
Context `{U : Unicode}.

Lemma prologue_spaces fuel f f' :
  remove_spaces f' = remove_spaces f → prologue fuel f' = prologue fuel f.
Proof. unfold prologue. by intros ->. Qed.

Lemma solve_formula_spaces fuel f f' :
  remove_spaces f' = remove_spaces f →
  solve_formula fuel f' = solve_formula fuel f ∨
  ∃ lines, solve_formula fuel f = Ok (join nl (lines ++ conclusion f))
           ∧ solve_formula fuel f' = Ok (join nl (lines ++ conclusion f')).
Proof.
  intros Heq. unfold solve_formula. rewrite (prologue_spaces fuel f f' Heq).
  destruct (prologue fuel f) as [[report|[p cur]]| |]; simpl; [by left| |by left..].
  destruct (main_loop fuel p cur) as [[[p' cur']|report]| |]; simpl; [|by left..].
  unfold epilogue. destruct (is_atomic cur'); [|by left].
  right. cbn [steps append_step]. eauto.
Qed.

(** ** Atoms in parentheses *)

Lemma wrap_S k p : wrap (S k) p = LP :: wrap k p ++ [RP].
Proof. reflexivity. Qed.

Lemma wrap_elem k p c : c ∈ wrap k p → c = LP ∨ c = RP ∨ c ∈ p.
Proof.
  induction k as [|k IH]; simpl; [auto|].
  intros [->|[Hc| ->%list_elem_of_singleton]%elem_of_app]%elem_of_cons; auto.
Qed.

Lemma wrap_atomic_elem k p c :
  is_atomic p = true → c ∈ wrap k p → c ≠ SPACE ∧ is_operator c = false.
Proof.
  intros Hp [->|[->|Hc]]%wrap_elem; [done..|].
  destruct (is_operator c) eqn:Hop.
  - destruct (is_atomic_alnum _ _ Hp Hc) as [H|H].
    + by rewrite isalpha_operator in H.
    + by rewrite isdigit_operator in H.
  - split; [|done]. intros ->. by apply is_atomic_no_space in Hp.
Qed.

Lemma remove_spaces_wrap k p : is_atomic p = true → remove_spaces (wrap k p) = wrap k p.
Proof.
  intros Hp. apply remove_spaces_id. intros Hin.
  by destruct (wrap_atomic_elem k p SPACE Hp Hin).
Qed.


Lemma solve_formula_wrap_1 fuel p :
  is_atomic p = true → solve_formula fuel (wrap 1 p) = Ok (redundant_report p).
Proof.
  intros Hp. unfold solve_formula, prologue.
  rewrite remove_spaces_wrap by done. simpl wrap.
  rewrite is_atomic_LP, strip_ends_wrap, Hp.
  assert (startswith (LP :: p ++ [RP]) LP && endswith (LP :: p ++ [RP]) RP = true)
    as -> by (apply wrapped_spec; eauto).
  reflexivity.
Qed.

Lemma solve_formula_wrap_2 fuel k p :
  is_atomic p = true → (2 ≤ k)%nat → (length (wrap k p) < fuel)%nat →
  ∃ p1,
    prologue fuel (wrap k p) = Ok (inr (p1, wrap k p))
    ∧ loop_body p1 (wrap k p)
      = Return (reject (append_step p1 (nl ++ py "Current formula: " ++ wrap k p))
                       (py "Error: No valid basic compound formula found"))
    ∧ solve_formula fuel (wrap k p)
      = Ok (reject (append_step p1 (nl ++ py "Current formula: " ++ wrap k p))
                   (py "Error: No valid basic compound formula found")).
Proof.
  intros Hp Hk Hfuel. destruct k as [|[|k]]; [lia..|].
  assert (∃ p1, prologue fuel (wrap (S (S k)) p) = Ok (inr (p1, wrap (S (S k)) p)))
    as [p1 Hpro].
  { destruct (prologue_Ok fuel _ Hfuel) as [[report Hr]|(p1 & Hp1 & _)].
    - exfalso. revert Hr. unfold prologue.
      rewrite remove_spaces_wrap by done.
      rewrite (wrap_S (S k)), is_atomic_LP, strip_ends_wrap, wrap_S, is_atomic_LP.
      rewrite andb_false_r. by destruct (scan_atomics _ _ _ _ _).
    - rewrite remove_spaces_wrap in Hp1 by done. eauto. }
  exists p1.
  assert (loop_body p1 (wrap (S (S k)) p)
          = Return (reject (append_step p1 (nl ++ py "Current formula: " ++ wrap (S (S k)) p))
                           (py "Error: No valid basic compound formula found"))) as Hbody.
  { unfold loop_body. rewrite (wrap_S (S k)), is_atomic_LP, <-wrap_S.
    cbn [substitutions append_step].
    rewrite find_first_basic_compound_no_operator; [done|].
    intros c Hc. by destruct (wrap_atomic_elem _ _ _ Hp Hc). }
  split_and!; [done..|].
  unfold solve_formula. rewrite Hpro, bind_Ok.
  destruct fuel as [|fuel]; [lia|]. cbn [main_loop]. by rewrite Hbody.
Qed.

End Spaces.

(** * The claims *)

(** ** Immediate acceptance of atoms *)

Section AtomClaims.
Context `{U : Unicode}.

Lemma prologue_atomic fuel p :
  is_atomic p = true → prologue fuel p = Ok (inl (atomic_report p)).
Proof.
  intros Hp. unfold prologue.
  rewrite (remove_spaces_id p) by by apply is_atomic_no_space.
  rewrite Hp. reflexivity.
Qed.

Lemma is_atomic_ascii_letter c :
  (c < 128)%N → ascii_letter c = true → is_atomic [c] = true.
Proof. intros Hc Hl. simpl. by rewrite str_isalpha_singleton, isalpha_ascii. Qed.

Lemma is_atomic_ascii_letter_digit c d :
  (c < 128)%N → ascii_letter c = true → (d < 128)%N → ascii_digit d = true →
  is_atomic [c; d] = true.
Proof.
  intros Hc Hl Hd Hdig. rewrite is_atomic_cons. simpl.
  by rewrite isalpha_ascii, isdigit_ascii, Hl, Hdig.
Qed.

(** C9: for every atomic proposition [p] (a letter alone, or a letter
    followed by digits), [solve_formula] accepts at once: it returns from
    the first short-circuit, before the main loop, and the report is the
    header line, exactly one atomic-membership fact line and the acceptance
    line, with no reduction step. *)
Theorem solve_formula_atomic_accepts (fuel : nat) (p : list N) :
  is_atomic p = true →
  prologue fuel p = Ok (inl (atomic_report p))
  ∧ solve_formula fuel p
    = Ok (join nl [py "Analyzing formula: " ++ p ++ nl;
                   p ++ py " - atomic => " ++ p ++ py " belongs to P(v)";
                   nl ++ py "Therefore, this is a well-formed formula."]).
Proof.
  intros Hp. split; [by apply prologue_atomic|]. by apply solve_formula_atomic.
Qed.

(** C10: [is_atomic] is not restricted to uppercase ASCII letters: it
    holds exactly of the non-empty strings whose first character is any
    letter and whose other characters are all digits; so [solve_formula]
    takes the immediate-accept path on the lowercase [p] and on [q7]. *)
Theorem is_atomic_any_letter :
  (∀ s, is_atomic s = true ↔
        ∃ c ds, s = c :: ds ∧ isalpha c = true ∧ forallb isdigit ds = true)
  ∧ (∀ fuel, prologue fuel (py "p") = Ok (inl (atomic_report (py "p"))))
  ∧ (∀ fuel, prologue fuel (py "q7") = Ok (inl (atomic_report (py "q7")))).
Proof.
  split; [apply is_atomic_spec|]. split; intros fuel; apply prologue_atomic.
  - by apply is_atomic_ascii_letter.
  - by apply is_atomic_ascii_letter_digit.
Qed.

End AtomClaims.

Lemma solve_formula_atomic_accepts_witness :
  is_atomic (U:=ascii_only) (py "Q1") = true
  ∧ solve_formula (U:=ascii_only) 0 (py "Q1")
    = Ok (py "Analyzing formula: Q1" ++ nl ++ nl
            ++ py "Q1 - atomic => Q1 belongs to P(v)" ++ nl ++ nl
            ++ py "Therefore, this is a well-formed formula.").
Proof.
  split; [reflexivity|].
  apply (@solve_formula_atomic_accepts ascii_only 0 (py "Q1")). reflexivity.
Defined.

(** ** The negation predicate *)

Section NegationClaims.
Context `{U : Unicode}.

Lemma is_valid_negation_double_wrap :
  is_valid_negation (py "(¬(P))") = false.
Proof.
  apply not_true_iff_false.
  change (py "(¬(P))") with (LP :: (NEG :: [LP; 80%N; RP]) ++ [RP]).
  rewrite is_valid_negation_neg. intros [Ha|[_ Hq]].
  - by rewrite is_atomic_LP in Ha.
  - specialize (Hq [80%N] eq_refl). by rewrite is_atomic_ascii_letter in Hq.
Qed.

(** C3, as the code has it: [is_valid_negation] returns true for every
    string that is not wrapped in an outer pair of parentheses, and also
    for every wrapped string whose inner content does not start with the
    negation symbol.  For a wrapped string whose inner content is the
    negation symbol followed by [a], it returns true exactly when [a] is an
    atomic proposition, or [a] opens with a parenthesis and is not an
    atomic proposition wrapped in parentheses; it rejects [(¬(P))]. *)
Theorem is_valid_negation_spec :
  (∀ s, (∀ inner, s ≠ LP :: inner ++ [RP]) → is_valid_negation s = true)
  ∧ (∀ inner, startswith inner NEG = false →
              is_valid_negation (LP :: inner ++ [RP]) = true)
  ∧ (∀ a, is_valid_negation (LP :: (NEG :: a) ++ [RP]) = true ↔
          is_atomic a = true
          ∨ ((∃ b, a = LP :: b) ∧ ∀ q, a = LP :: q ++ [RP] → is_atomic q = false))
  ∧ is_valid_negation (py "(¬(P))") = false.
Proof.
  split_and!.
  - apply is_valid_negation_unwrapped.
  - apply is_valid_negation_other.
  - apply is_valid_negation_neg.
  - apply is_valid_negation_double_wrap.
Qed.

End NegationClaims.

Lemma is_valid_negation_spec_witness :
  startswith (py "P∧Q") NEG = false
  ∧ is_valid_negation (U:=ascii_only) (LP :: py "P∧Q" ++ [RP]) = true.
Proof.
  split; [reflexivity|].
  apply (proj1 (proj2 (@is_valid_negation_spec ascii_only)) (py "P∧Q")). reflexivity.
Defined.

(** C3 as stated fails: the wrapped string [(P∧Q)], whose inner content
    does not start with the negation symbol, is accepted. *)
Lemma is_valid_negation_accepts_conjunction :
  py "(P∧Q)" = LP :: py "P∧Q" ++ [RP]
  ∧ startswith (py "P∧Q") NEG = false
  ∧ is_valid_negation (U:=ascii_only) (py "(P∧Q)") = true.
Proof. split_and!; reflexivity. Qed.

(** ** The scanner's choice among compounds of equal depth *)

(** C2: in [((P∧Q)∨(R∧S))] the spans [(P∧Q)] at index 1 and [(R∧S)] at
    index 7 are basic compounds at the same, maximal, depth;
    [find_first_basic_compound] returns the right one. *)
Theorem find_first_basic_compound_rightmost :
  let formula := py "((P∧Q)∨(R∧S))" in
  slice formula 1 6 = py "(P∧Q)"
  ∧ is_basic_compound (U:=ascii_only) ∅ (py "(P∧Q)") = true
  ∧ depth (take 1 formula) = depth (take 7 formula)
  ∧ find_first_basic_compound (U:=ascii_only) ∅ formula = Some (7, 12, py "(R∧S)").
Proof. split_and!; vm_compute; reflexivity. Qed.

(** ** Spaces in the input *)

(** C1, as the code has it: when [f'] is [f] with space characters
    inserted (the only whitespace that is removed), the two reports are
    equal, or they are the same lines up to the closing lines, which name
    the input as it was given, spaces included. *)
Theorem solve_formula_inserted_spaces `{U : Unicode} (fuel : nat) (f f' : list N) :
  inserts_spaces f f' →
  solve_formula fuel f' = solve_formula fuel f
  ∨ ∃ lines, solve_formula fuel f = Ok (join nl (lines ++ conclusion f))
             ∧ solve_formula fuel f' = Ok (join nl (lines ++ conclusion f')).
Proof. intros Hins. by apply solve_formula_spaces, remove_spaces_inserts. Qed.

Lemma inserts_spaces_example : inserts_spaces (py "(P∧Q)") (py "(P ∧Q)").
Proof.
  change (py "(P∧Q)") with [LP; 80%N; AND; 81%N; RP].
  change (py "(P ∧Q)") with [LP; 80%N; SPACE; AND; 81%N; RP].
  do 2 apply inserts_keep. apply inserts_space. do 3 apply inserts_keep.
  apply inserts_nil.
Defined.

Lemma solve_formula_inserted_spaces_witness :
  solve_formula (U:=ascii_only) 8 (py "(P ∧Q)") = solve_formula (U:=ascii_only) 8 (py "(P∧Q)")
  ∨ ∃ lines,
      solve_formula (U:=ascii_only) 8 (py "(P∧Q)")
      = Ok (join nl (lines ++ conclusion (py "(P∧Q)")))
      ∧ solve_formula (U:=ascii_only) 8 (py "(P ∧Q)")
        = Ok (join nl (lines ++ conclusion (py "(P ∧Q)"))).
Proof.
  apply (@solve_formula_inserted_spaces ascii_only 8 (py "(P∧Q)") (py "(P ∧Q)")).
  exact inserts_spaces_example.
Defined.

(** C1 as stated fails: [(P ∧Q)] is [(P∧Q)] with a space inserted, and
    the two reports differ (in the line that names the input). *)
Lemma solve_formula_spaces_differ :
  inserts_spaces (py "(P∧Q)") (py "(P ∧Q)")
  ∧ solve_formula (U:=ascii_only) 8 (py "(P ∧Q)")
    ≠ solve_formula (U:=ascii_only) 8 (py "(P∧Q)").
Proof.
  split; [exact inserts_spaces_example|]. intros Heq.
  apply (f_equal (λ r, match r with Ok s => length s | _ => 0%nat end)) in Heq.
  vm_compute in Heq. discriminate Heq.
Qed.

(** ** The substitution table *)

Lemma observe_Some `{U : Unicode} fuel n original cur1 s e compound bound bound' cur2 :
  observe fuel n original
  = Some (Observation cur1 (s, e, compound) bound bound' cur2) →
  ∃ p cur p1 p2,
    prologue fuel original = Ok (inr (p, cur))
    ∧ iterate n p cur = Some (p1, cur1)
    ∧ find_first_basic_compound (substitutions p1) cur1 = Some (s, e, compound)
    ∧ loop_body p1 cur1 = Next p2 cur2
    ∧ substitutions p1 !! compound = bound
    ∧ substitutions p2 !! compound = bound'.
Proof.
  unfold observe.
  destruct (prologue fuel original) as [[report|[p cur]]| |]; try done.
  destruct (iterate n p cur) as [[p1 cur1']|] eqn:Hit; [|done].
  destruct (find_first_basic_compound _ _) as [[[s' e'] compound']|] eqn:Hf; [|done].
  destruct (loop_body p1 cur1') as [| |p2 cur2'] eqn:Hbody; try done.
  intros [= <- <- <- <- <- <- <-]. by exists p, cur, p1, p2.
Qed.


(** C4, as the code has it: a reduction assigns the compound's text to
    the placeholder minted by that reduction.  No key is removed and no
    other key changes; the placeholder is new, no key was bound to it
    before.  (The key itself may have been present already.) *)
Theorem substitutions_step `{U : Unicode} (fuel : nat) (original : list N)
    (p : parser) (cur : list N) (n : nat) (p1 : parser) (cur1 : list N)
    (p2 : parser) (cur2 : list N) :
  prologue fuel original = Ok (inr (p, cur)) →
  iterate n p cur = Some (p1, cur1) →
  loop_body p1 cur1 = Next p2 cur2 →
  ∃ s e compound,
    find_first_basic_compound (substitutions p1) cur1 = Some (s, e, compound)
    ∧ substitutions p2 = <[compound := placeholder (S n)]> (substitutions p1)
    ∧ (∀ k, is_Some (substitutions p1 !! k) → is_Some (substitutions p2 !! k))
    ∧ (∀ k, k ≠ compound → substitutions p2 !! k = substitutions p1 !! k)
    ∧ (∀ k, substitutions p1 !! k ≠ Some (placeholder (S n))).
Proof.
  intros Hpro Hit Hbody.
  pose proof (reachable_inv _ _ _ _ _ _ _ Hpro Hit) as [Hn Hsubs].
  apply loop_body_Next in Hbody as (s & e & compound & _ & Hf & _ & Hs & _).
  rewrite Hn in Hs. exists s, e, compound. split_and!; [done..| | |].
  - intros k Hk. rewrite Hs, lookup_insert. by case_decide.
  - intros k Hk. by rewrite Hs, lookup_insert_ne.
  - intros k [_ (m & Hm & Heq%placeholder_inj)]%Hsubs. lia.
Qed.

Lemma substitutions_step_witness :
  ∃ p cur p2 cur2,
    prologue (U:=ascii_only) 8 (py "(P∧Q)") = Ok (inr (p, cur))
    ∧ loop_body (U:=ascii_only) p cur = Next p2 cur2
    ∧ substitutions p2 = <[py "(P∧Q)" := placeholder 1]> (substitutions p).
Proof.
  eexists _, _, _, _. split; [vm_compute; reflexivity|]. split; [vm_compute; reflexivity|].
  edestruct (@substitutions_step ascii_only 8 (py "(P∧Q)"))
    as (s & e & compound & Hf & Hs & _); [vm_compute; reflexivity| | |].
  - instantiate (3 := 0%nat). reflexivity.
  - vm_compute. reflexivity.
  - vm_compute in Hf. injection Hf as <- <- <-. exact Hs.
Defined.

(** C4 as stated fails: in [((P∧Q)∨(P∧Q))] the second reduction records
    the key [(P∧Q)], which the first reduction had recorded already. *)
Lemma substitutions_key_reused :
  ∃ p cur p1 cur1 p2 cur2 s e compound,
    prologue (U:=ascii_only) 20 (py "((P∧Q)∨(P∧Q))") = Ok (inr (p, cur))
    ∧ iterate (U:=ascii_only) 1 p cur = Some (p1, cur1)
    ∧ find_first_basic_compound (U:=ascii_only) (substitutions p1) cur1
      = Some (s, e, compound)
    ∧ loop_body (U:=ascii_only) p1 cur1 = Next p2 cur2
    ∧ substitutions p1 !! compound = Some (py "X1")
    ∧ substitutions p2 !! compound = Some (py "X2").
Proof.
  assert (observe (U:=ascii_only) 20 1 (py "((P∧Q)∨(P∧Q))")
          = Some (Observation (py "((P∧Q)∨X1)") (1, 6, py "(P∧Q)")
                              (Some (py "X1")) (Some (py "X2")) (py "(X2∨X1)")))
    as (p & cur & p1 & p2 & H)%observe_Some by (vm_compute; reflexivity).
  exists p, cur, p1, (py "((P∧Q)∨X1)"), p2, (py "(X2∨X1)"), 1, 6, (py "(P∧Q)").
  exact H.
Qed.

(** ** Progress of the main loop *)

(** C5, as the code has it: every reduction strictly decreases the
    number of opening parentheses of the working string, and in each of
    the first 99 reductions (while the placeholder has at most three
    characters) the working string gets strictly shorter; the main loop
    stops, by [break] or by a rejection, after a number of reductions
    bounded by the length of the input string. *)
Theorem reduction_progress `{U : Unicode} (fuel : nat) (original : list N)
    (p : parser) (cur : list N) :
  prologue fuel original = Ok (inr (p, cur)) →
  (∀ n p1 cur1 p2 cur2,
     iterate n p cur = Some (p1, cur1) → loop_body p1 cur1 = Next p2 cur2 →
     (open_parens cur2 < open_parens cur1)%nat
     ∧ ((n < 99)%nat → (length cur2 < length cur1)%nat))
  ∧ ∃ n p1 cur1,
      (n ≤ length original)%nat
      ∧ iterate n p cur = Some (p1, cur1)
      ∧ (loop_body p1 cur1 = Break ∨ ∃ report, loop_body p1 cur1 = Return report).
Proof.
  intros Hpro. split.
  - intros n p1 cur1 p2 cur2 Hit Hbody. split.
    + by eapply loop_body_open_parens.
    + intros Hn. eapply loop_body_length; [|done..]. by eapply reachable_inv.
  - destruct (iterate_stops p cur) as (n & p1 & cur1 & Hn & Hit & Hstop).
    exists n, p1, cur1. split_and!; [|done..].
    apply prologue_inr in Hpro as [-> _].
    pose proof (open_parens_le_length (remove_spaces original)).
    pose proof (remove_spaces_length original). lia.
Qed.

Lemma reduction_progress_witness :
  ∃ p cur,
    prologue (U:=ascii_only) 8 (py "(P∧Q)") = Ok (inr (p, cur))
    ∧ ∃ n p1 cur1,
        (n ≤ length (py "(P∧Q)"))%nat
        ∧ iterate (U:=ascii_only) n p cur = Some (p1, cur1)
        ∧ (loop_body (U:=ascii_only) p1 cur1 = Break
           ∨ ∃ report, loop_body (U:=ascii_only) p1 cur1 = Return report).
Proof.
  eexists _, _. split; [vm_compute; reflexivity|].
  eapply (@reduction_progress ascii_only 8 (py "(P∧Q)")). vm_compute. reflexivity.
Defined.

(** C5 as stated fails: in the run on [negation_chain 51] the hundredth
    reduction replaces [(¬P)] by [X100], and the working string keeps its
    length of 16 characters. *)
Lemma reduction_not_shorter :
  ∃ p cur p1 cur1 p2 cur2,
    prologue (U:=ascii_only) 400 (negation_chain 51) = Ok (inr (p, cur))
    ∧ iterate (U:=ascii_only) 99 p cur = Some (p1, cur1)
    ∧ loop_body (U:=ascii_only) p1 cur1 = Next p2 cur2
    ∧ cur1 = py "((X99∧X98)∧(¬P))"
    ∧ cur2 = py "((X99∧X98)∧X100)"
    ∧ ¬ (length cur2 < length cur1)%nat.
Proof.
  assert (observe (U:=ascii_only) 400 99 (negation_chain 51)
          = Some (Observation (py "((X99∧X98)∧(¬P))") (11, 15, py "(¬P)")
                              (Some (py "X98")) (Some (py "X100"))
                              (py "((X99∧X98)∧X100)")))
    as (p & cur & p1 & p2 & Hpro & Hit & _ & Hbody & _)%observe_Some
    by (vm_compute; reflexivity).
  exists p, cur, p1, (py "((X99∧X98)∧(¬P))"), p2, (py "((X99∧X98)∧X100)").
  split; [exact Hpro|]. split; [exact Hit|]. split; [exact Hbody|].
  split; [reflexivity|]. split; [reflexivity|].
  change (¬ (16 < 16)%nat). lia.
Qed.

(** ** Atoms in parentheses *)

Lemma prologue_wrap_1 `{U : Unicode} fuel p :
  is_atomic p = true → prologue fuel (wrap 1 p) = Ok (inl (redundant_report p)).
Proof.
  intros Hp. unfold prologue.
  rewrite remove_spaces_wrap by done. simpl wrap.
  rewrite is_atomic_LP, strip_ends_wrap, Hp.
  assert (startswith (LP :: p ++ [RP]) LP && endswith (LP :: p ++ [RP]) RP = true)
    as -> by (apply wrapped_spec; eauto).
  reflexivity.
Qed.

(** C6, as the code has it: an atomic proposition in exactly one pair of
    parentheses is rejected by the second short-circuit, with the
    redundant-parenthesization error line and the rejection line and no
    reduction step.  In two or more pairs it is rejected too, and without
    a reduction step, but by the first pass through the main loop and with
    the error line of a missing basic compound. *)
Theorem solve_formula_wrapped_atom `{U : Unicode} (fuel : nat) (p : list N) :
  is_atomic p = true →
  (prologue fuel (wrap 1 p) = Ok (inl (redundant_report p))
   ∧ solve_formula fuel (wrap 1 p)
     = Ok (join nl [py "Analyzing formula: " ++ wrap 1 p ++ nl;
                    py "Error: Atomic formula " ++ p
                      ++ py " should not be surrounded by parentheses";
                    nl ++ py "Not a valid formula in P(v)"]))
  ∧ ∀ k, (2 ≤ k)%nat → (length (wrap k p) < fuel)%nat →
      ∃ p1,
        prologue fuel (wrap k p) = Ok (inr (p1, wrap k p))
        ∧ loop_body p1 (wrap k p)
          = Return (reject (append_step p1 (nl ++ py "Current formula: " ++ wrap k p))
                           (py "Error: No valid basic compound formula found"))
        ∧ solve_formula fuel (wrap k p)
          = Ok (reject (append_step p1 (nl ++ py "Current formula: " ++ wrap k p))
                       (py "Error: No valid basic compound formula found")).
Proof.
  intros Hp. split_and!.
  - by apply prologue_wrap_1.
  - by apply solve_formula_wrap_1.
  - intros k Hk Hfuel. by apply solve_formula_wrap_2.
Qed.

Lemma solve_formula_wrapped_atom_witness :
  is_atomic (U:=ascii_only) (py "P") = true
  ∧ solve_formula (U:=ascii_only) 0 (wrap 1 (py "P"))
    = Ok (join nl [py "Analyzing formula: " ++ wrap 1 (py "P") ++ nl;
                   py "Error: Atomic formula " ++ py "P"
                     ++ py " should not be surrounded by parentheses";
                   nl ++ py "Not a valid formula in P(v)"]).
Proof.
  split; [reflexivity|].
  exact (proj2 (proj1 (@solve_formula_wrapped_atom ascii_only 0 (py "P") eq_refl))).
Defined.


(** C6 as stated fails for two pairs of parentheses: the report on
    [((P))] has no redundant-parenthesization error line. *)
Lemma solve_formula_double_wrap :
  is_atomic (U:=ascii_only) (py "P") = true
  ∧ solve_formula (U:=ascii_only) 6 (wrap 2 (py "P"))
    = Ok (py "Analyzing formula: ((P))" ++ nl ++ nl
            ++ py "P - atomic => P belongs to P(v)" ++ nl ++ nl
            ++ py "Begin substitutions:" ++ nl ++ nl
            ++ py "Current formula: ((P))" ++ nl
            ++ py "Error: No valid basic compound formula found" ++ nl ++ nl
            ++ py "Not a valid formula in P(v)")
  ∧ ∀ report, solve_formula (U:=ascii_only) 6 (wrap 2 (py "P")) = Ok report →
      contains (py "should not be surrounded by parentheses") report = false.
Proof.
  split_and!; [reflexivity|vm_compute; reflexivity|].
  intros report Hr. vm_compute in Hr. injection Hr as <-. vm_compute. reflexivity.
Qed.

(** ** The basic-compound predicate *)

(** C7, as the code has it: a span that [is_basic_compound] accepts and
    whose interior does not start with the negation symbol is
    [(l op r)], where [op] is one of the five operator symbols, it is the
    only operator symbol of the interior outside all parentheses, [l] and
    [r] are not empty, and each of [l] and [r] is an atomic proposition
    (which a placeholder is) or the text of a compound reduced before (a
    key of the substitution table). *)
Theorem is_basic_compound_shape `{U : Unicode} (subs : gmap (list N) (list N))
    (s : list N) :
  is_basic_compound subs s = true →
  startswith (strip_ends s) NEG = false →
  ∃ l op r,
    s = LP :: (l ++ op :: r) ++ [RP]
    ∧ is_operator op = true
    ∧ l ≠ [] ∧ r ≠ []
    ∧ depth l = 0
    ∧ (∀ i, operator_at_depth_zero (l ++ op :: r) i → i = length l)
    ∧ (is_atomic l = true ∨ is_Some (subs !! l))
    ∧ (is_atomic r = true ∨ is_Some (subs !! r)).
Proof. apply is_basic_compound_binary. Qed.

Lemma is_basic_compound_shape_witness :
  ∃ l op r,
    py "(P∧Q)" = LP :: (l ++ op :: r) ++ [RP]
    ∧ is_operator op = true
    ∧ (is_atomic (U:=ascii_only) l = true ∨ is_Some ((∅ : gmap (list N) (list N)) !! l))
    ∧ (is_atomic (U:=ascii_only) r = true ∨ is_Some ((∅ : gmap (list N) (list N)) !! r)).
Proof.
  destruct (@is_basic_compound_shape ascii_only ∅ (py "(P∧Q)"))
    as (l & op & r & Hs & Hop & _ & _ & _ & _ & Hl & Hr); [reflexivity..|].
  by exists l, op, r.
Defined.

(** C7 as stated fails: once [(P∧Q)] has been reduced to [X1], the span
    [(X1∨(P∧Q))] is accepted although its right operand [(P∧Q)] is neither
    an atomic proposition nor a placeholder. *)
Lemma is_basic_compound_key_operand :
  let subs : gmap (list N) (list N) := {[ py "(P∧Q)" := py "X1" ]} in
  is_basic_compound (U:=ascii_only) subs (py "(X1∨(P∧Q))") = true
  ∧ py "(X1∨(P∧Q))" = LP :: (py "X1" ++ OR :: py "(P∧Q)") ++ [RP]
  ∧ depth (py "X1") = 0
  ∧ is_atomic (U:=ascii_only) (py "(P∧Q)") = false
  ∧ ∀ n, py "(P∧Q)" ≠ placeholder n.
Proof.
  split_and!; try (vm_compute; reflexivity).
  intros n. unfold placeholder. change (py "X") with [88%N]. vm_compute. discriminate.
Qed.

(** ** Totality *)

(** C8: for every input string [solve_formula] returns a report: given
    fuel above the length of the input, no loop runs out of it and no
    index is out of range, and the report does not depend on the fuel. *)
Theorem solve_formula_total `{U : Unicode} (original : list N) :
  ∃ report, ∀ fuel, (length original < fuel)%nat →
    solve_formula fuel original = Ok report.
Proof.
  destruct (solve_formula_Ok (S (length original)) original) as [report Hr]; [lia|].
  exists report. intros fuel Hfuel. eapply solve_formula_mono; [done|lia].
Qed.

Lemma solve_formula_total_witness :
  ∃ report, solve_formula (U:=ascii_only) 5 (py "(P∧Q") = Ok report.
Proof.
  destruct (@solve_formula_total ascii_only (py "(P∧Q")) as [report Hr].
  exists report. apply Hr. vm_compute. lia.
Defined.

(** * Further properties of the parser *)

(** ** Balanced parentheses *)

Lemma depth_take_S s k c :
  s !! k = Some c → depth (take (S k) s) = depth (take k s) + paren_delta c.
Proof. intros Hc. by rewrite (take_S_r _ _ _ Hc), depth_snoc. Qed.

Lemma depth_take_ge s k : (length s ≤ k)%nat → depth (take k s) = depth s.
Proof. intros Hk. by rewrite take_ge. Qed.

Lemma check_parentheses_loop_spec formula count :
  0 ≤ count →
  check_parentheses_loop formula count = true ↔
  (∀ k, 0 ≤ count + depth (take k formula)) ∧ count + depth formula = 0.
Proof.
  revert count. induction formula as [|c formula IH]; intros count Hcount; simpl.
  - rewrite Z.eqb_eq. split.
    + intros ->. split; [|done]. intros k. rewrite take_nil. simpl. lia.
    + intros [_ ?]. lia.
  - assert ((if (c =? LP)%N then count + 1 else if (c =? RP)%N then count - 1 else count)
            = count + paren_delta c) as ->.
    { unfold paren_delta. repeat case_match; lia. }
    destruct (count + paren_delta c <? 0) eqn:Hneg.
    + apply Z.ltb_lt in Hneg. split; [done|]. intros [Hpre _].
      specialize (Hpre 1%nat). simpl in Hpre. lia.
    + apply Z.ltb_ge in Hneg. rewrite IH by done. split.
      * intros [Hpre Hend]. split; [|lia]. intros [|k]; simpl; [lia|].
        specialize (Hpre k). lia.
      * intros [Hpre Hend]. split; [|lia]. intros k.
        specialize (Hpre (S k)). simpl in Hpre. lia.
Qed.

(** [check_parentheses] holds exactly of the strings in which every
    closing parenthesis has an opening one before it and no opening one is
    left over: no prefix closes more than it opens, and the whole string
    closes as many as it opens. *)
Theorem check_parentheses_balanced (formula : list N) :
  check_parentheses formula = true ↔
  (∀ k, 0 ≤ depth (take k formula)) ∧ depth formula = 0.
Proof.
  unfold check_parentheses. rewrite check_parentheses_loop_spec by done.
  split; intros [Hpre Hend]; (split; [intros k; specialize (Hpre k)|]); lia.
Qed.

(** ** The matching parenthesis *)

Lemma find_subformula_end_loop_spec rest i count :
  1 ≤ count →
  (find_subformula_end_loop rest i count = -1
   ∧ ∀ k, 1 ≤ count + depth (take k rest))
  ∨ ∃ k, find_subformula_end_loop rest i count = i + Z.of_nat k
         ∧ rest !! k = Some RP
         ∧ count + depth (take (S k) rest) = 0
         ∧ ∀ j, (j ≤ k)%nat → 1 ≤ count + depth (take j rest).
Proof.
  revert i count. induction rest as [|c rest IH]; intros i count Hcount; simpl.
  - left. split; [done|]. intros k. rewrite take_nil. simpl. lia.
  - assert (∀ count',
      count' = count + paren_delta c → 1 ≤ count' →
      (find_subformula_end_loop rest (i + 1) count' = -1
       ∧ ∀ k, 1 ≤ count' + depth (take k rest))
      ∨ (∃ k, find_subformula_end_loop rest (i + 1) count' = i + 1 + Z.of_nat k
              ∧ rest !! k = Some RP
              ∧ count' + depth (take (S k) rest) = 0
              ∧ ∀ j, (j ≤ k)%nat → 1 ≤ count' + depth (take j rest)) →
      (find_subformula_end_loop rest (i + 1) count' = -1
       ∧ ∀ k, 1 ≤ count + depth (take k (c :: rest)))
      ∨ (∃ k, find_subformula_end_loop rest (i + 1) count' = i + Z.of_nat k
              ∧ (c :: rest) !! k = Some RP
              ∧ count + depth (take (S k) (c :: rest)) = 0
              ∧ ∀ j, (j ≤ k)%nat → 1 ≤ count + depth (take j (c :: rest)))) as Hstep.
    { intros count' -> Hc' [[Hr Hpre]|(k & Hr & Hk & Hzero & Hpre)].
      - left. split; [done|]. intros [|k]; simpl; [lia|]. specialize (Hpre k). lia.
      - right. exists (S k). split_and!; [lia|done|simpl in *; lia|].
        intros [|j] Hj; simpl; [lia|]. specialize (Hpre j). lia. }
    destruct (c =? LP)%N eqn:HLP.
    { apply Hstep; [unfold paren_delta; rewrite HLP; lia|lia|]. apply IH. lia. }
    destruct (c =? RP)%N eqn:HRP.
    + destruct (count - 1 =? 0) eqn:Hzero.
      * apply Z.eqb_eq in Hzero. right. exists 0%nat.
        apply N.eqb_eq in HRP as ->.
        split_and!; [lia|done|simpl; change (paren_delta RP) with (-1); lia|].
        intros j Hj. replace j with 0%nat by lia. simpl. lia.
      * apply Z.eqb_neq in Hzero.
        apply Hstep; [unfold paren_delta; rewrite HLP, HRP; lia|lia|]. apply IH. lia.
    + apply Hstep; [unfold paren_delta; rewrite HLP, HRP; lia|lia|]. by apply IH.
Qed.

Lemma depth_slice_cons formula start j :
  0 ≤ start < j → formula !! Z.to_nat start = Some LP →
  depth (slice formula start j)
  = 1 + depth (take (Z.to_nat (j - start - 1)) (drop (Z.to_nat (start + 1)) formula)).
Proof.
  intros Hj HLP. unfold slice. rewrite (drop_S _ _ _ HLP).
  replace (Z.to_nat j - Z.to_nat start)%nat with (S (Z.to_nat (j - start - 1))) by lia.
  simpl. replace (S (Z.to_nat start)) with (Z.to_nat (start + 1)) by lia. done.
Qed.

(** Given the index [start] of an opening parenthesis,
    [find_subformula_end] returns the index of the parenthesis that closes
    it: the span from [start] to the result is the shortest one that opens
    at [start] and is balanced.  It returns [-1] when nothing closes it. *)
Theorem find_subformula_end_matching (formula : list N) (start : Z) :
  0 ≤ start → formula !! Z.to_nat start = Some LP →
  let r := find_subformula_end formula start in
  (r = -1 ∧ ∀ j, start < j → 1 ≤ depth (slice formula start j))
  ∨ (start < r < Z.of_nat (length formula)
     ∧ formula !! Z.to_nat r = Some RP
     ∧ depth (slice formula start (r + 1)) = 0
     ∧ ∀ j, start < j ≤ r → 1 ≤ depth (slice formula start j)).
Proof.
  intros Hstart HLP r. subst r. unfold find_subformula_end.
  destruct (find_subformula_end_loop_spec
              (drop (Z.to_nat (start + 1)) formula) (start + 1) 1)
    as [[Hr Hpre]|(k & Hr & Hk & Hzero & Hpre)]; [lia| |].
  - left. split; [done|]. intros j Hj. rewrite depth_slice_cons by (done || lia). apply Hpre.
  - right. rewrite Hr. rewrite lookup_drop in Hk.
    pose proof (lookup_lt_Some _ _ _ Hk) as Hlt.
    split_and!; [lia..| | |].
    + rewrite <-Hk. f_equal. lia.
    + rewrite depth_slice_cons by (done || lia).
      replace (Z.to_nat (start + 1 + Z.of_nat k + 1 - start - 1)) with (S k) by lia. done.
    + intros j Hj. rewrite depth_slice_cons by (done || lia). apply Hpre. lia.
Qed.

Lemma find_subformula_end_matching_witness :
  find_subformula_end (py "((P∧Q)∨R)") 1 = 5
  ∧ depth (slice (py "((P∧Q)∨R)") 1 (5 + 1)) = 0.
Proof.
  destruct (find_subformula_end_matching (py "((P∧Q)∨R)") 1)
    as [[Hr _]|(_ & _ & Hd & _)]; [lia|reflexivity|discriminate Hr|].
  split; [reflexivity|exact Hd].
Defined.

(** ** The component extractor *)

Lemma operator_at_depth_zero_app_l pre rest j :
  (j < length pre)%nat →
  operator_at_depth_zero (pre ++ rest) j ↔ operator_at_depth_zero pre j.
Proof.
  intros Hj. unfold operator_at_depth_zero.
  rewrite lookup_app_l by done. rewrite take_app_le by lia. done.
Qed.

(** The scan of [extract_components] stops at the first operator symbol
    outside all parentheses. *)
Lemma extract_loop_spec inner pre rest pc :
  inner = pre ++ rest → pc = depth pre →
  (∀ j, (j < length pre)%nat → ¬ operator_at_depth_zero inner j) →
  match extract_loop inner rest (Z.of_nat (length pre)) pc with
  | Some (op, left_, right_) =>
    ∃ k, inner !! k = Some op ∧ is_operator op = true
         ∧ left_ = Some (take k inner) ∧ right_ = drop (S k) inner
         ∧ depth (take k inner) = 0
         ∧ ∀ j, (j < k)%nat → ¬ operator_at_depth_zero inner j
  | None => ∀ j, ¬ operator_at_depth_zero inner j
  end.
Proof.
  revert pre pc. induction rest as [|c rest IH]; intros pre pc Hinner Hpc Hnone; simpl.
  - intros j Hj. apply (Hnone j); [|done].
    destruct Hj as (x & Hx%lookup_lt_Some & _). rewrite Hinner, app_nil_r in Hx. done.
  - assert (inner = (pre ++ [c]) ++ rest) as Hinner' by by rewrite <-app_assoc.
    assert (Z.of_nat (length pre) + 1 = Z.of_nat (length (pre ++ [c]))) as Hlen
      by (rewrite length_app; simpl; lia).
    assert (is_operator c && (depth pre =? 0) = false →
            ∀ j, (j < length (pre ++ [c]))%nat → ¬ operator_at_depth_zero inner j) as Hnone'.
    { intros Hc j Hj Hop. rewrite length_app in Hj. simpl in Hj.
      destruct (decide (j < length pre)%nat) as [Hlt|Hge]; [by apply (Hnone j)|].
      assert (j = length pre) as -> by lia.
      destruct Hop as (x & Hx & Hop & Hd).
      rewrite Hinner, list_lookup_middle in Hx by done. simplify_eq.
      rewrite take_app_length in Hd. by rewrite Hop, Hd in Hc. }
    destruct (c =? LP)%N eqn:HLP.
    { apply N.eqb_eq in HLP as ->. rewrite Hlen.
      apply IH; [done|by rewrite depth_snoc, Hpc|]. by apply Hnone'. }
    destruct (c =? RP)%N eqn:HRP.
    { apply N.eqb_eq in HRP as ->. rewrite Hlen.
      apply IH; [done|by rewrite depth_snoc, Hpc|]. by apply Hnone'. }
    assert (paren_delta c = 0) as Hdelta by (unfold paren_delta; by rewrite HLP, HRP).
    destruct ((pc =? 0) && is_operator c) eqn:Hop.
    + apply andb_true_iff in Hop as [Hzero%Z.eqb_eq Hop].
      exists (length pre). rewrite Hinner at 1. rewrite list_lookup_middle by done.
      rewrite slice_0, Nat2Z.id.
      replace (Z.to_nat (Z.of_nat (length pre) + 1)) with (S (length pre)) by lia.
      split_and!; try done.
      rewrite Hinner, take_app_length. lia.
    + rewrite Hlen. apply IH; [done|rewrite depth_snoc; lia|].
      apply Hnone'. subst pc. by rewrite andb_comm.
Qed.

Section Extractor.
Context `{U : Unicode}.

Lemma isalpha_NEG : isalpha NEG = false.
Proof. by apply isalpha_operator. Qed.

(** An atomic proposition has no parenthesis and no operator symbol. *)
Lemma is_atomic_plain s c :
  is_atomic s = true → c ∈ s → c ≠ LP ∧ c ≠ RP ∧ is_operator c = false.
Proof.
  intros Hs Hc. pose proof (is_atomic_alnum _ _ Hs Hc) as Halnum.
  split_and!.
  - intros ->. rewrite isalpha_LP, isdigit_LP in Halnum. by destruct Halnum.
  - intros ->. rewrite isalpha_RP, isdigit_RP in Halnum. by destruct Halnum.
  - destruct (is_operator c) eqn:Hop; [|done].
    rewrite isalpha_operator, isdigit_operator in Halnum by done. by destruct Halnum.
Qed.

Lemma is_atomic_operator_inside l op r :
  is_operator op = true → is_atomic (l ++ op :: r) = false.
Proof.
  intros Hop. apply not_true_iff_false. intros Ha.
  destruct (is_atomic_plain _ op Ha) as (_ & _ & Hno); [set_solver|]. congruence.
Qed.

(** The components recompose to the span: on a span in parentheses a
    result [(op, None, right)] is the negation [(¬right)], and a result
    [(op, left, right)] is the span [(left op right)], split at its first
    operator symbol outside all parentheses. *)
Theorem extract_components_recompose (inner : list N) (op : N)
    (left_ : option (list N)) (right_ : list N) :
  extract_components (LP :: inner ++ [RP]) = Some (op, left_, right_) →
  is_operator op = true
  ∧ match left_ with
    | None => op = NEG ∧ inner = op :: right_
    | Some l =>
      inner = l ++ op :: right_
      ∧ depth l = 0
      ∧ ∀ j, (j < length l)%nat → ¬ operator_at_depth_zero inner j
    end.
Proof.
  unfold extract_components. rewrite strip_ends_wrap.
  destruct (is_atomic inner); [done|].
  destruct (startswith inner NEG) eqn:Hneg.
  - destruct (negb (is_valid_negation _)); [done|].
    intros [= <- <- <-]. split; [done|]. split; [done|].
    apply startswith_true in Hneg as [a ->]. done.
  - pose proof (extract_loop_spec inner [] inner 0 eq_refl eq_refl) as Hspec.
    simpl in Hspec. change (Z.of_nat 0) with 0 in Hspec.
    specialize (Hspec ltac:(intros j Hj; lia)).
    destruct (extract_loop inner inner 0 0) as [[[op' l'] r']|]; [|done].
    intros [= -> -> ->].
    destruct Hspec as (k & Hk & Hop & -> & -> & Hd & Hfirst).
    split; [done|]. pose proof (lookup_lt_Some _ _ _ Hk) as Hlt.
    split_and!; [|done|].
    + rewrite <-(take_drop k inner) at 1. f_equal. by apply drop_S.
    + intros j Hj. apply Hfirst. rewrite length_take in Hj. lia.
Qed.

End Extractor.

Lemma extract_components_recompose_witness :
  extract_components (U:=ascii_only) (LP :: py "P∧(Q∨R)" ++ [RP])
  = Some (AND, Some (py "P"), py "(Q∨R)")
  ∧ py "P∧(Q∨R)" = py "P" ++ AND :: py "(Q∨R)".
Proof.
  split; [reflexivity|].
  exact (proj1 (proj2 (@extract_components_recompose ascii_only (py "P∧(Q∨R)") AND
                         (Some (py "P")) (py "(Q∨R)") eq_refl))).
Defined.

(** ** Balanced strings *)

(** No prefix closes more than it opens, and the string closes as many
    parentheses as it opens. *)
Definition balanced (s : list N) : Prop :=
  (∀ k, 0 ≤ depth (take k s)) ∧ depth s = 0.

Lemma check_parentheses_true s : check_parentheses s = true ↔ balanced s.
Proof.
  unfold check_parentheses, balanced.
  rewrite check_parentheses_loop_spec by done.
  split; intros [Hpre Hend]; (split; [intros k; specialize (Hpre k)|]); lia.
Qed.

Lemma balanced_nil : balanced [].
Proof. split; [|done]. intros k. by rewrite take_nil. Qed.

Lemma balanced_app s t : balanced s → balanced t → balanced (s ++ t).
Proof.
  intros [Hs Hs0] [Ht Ht0]. split.
  - intros k. rewrite take_app, depth_app.
    specialize (Hs k). specialize (Ht (k - length s)%nat). lia.
  - rewrite depth_app. lia.
Qed.

Lemma balanced_plain s : (∀ c, c ∈ s → c ≠ LP ∧ c ≠ RP) → balanced s.
Proof.
  assert (∀ t : list N, (∀ c, c ∈ t → c ≠ LP ∧ c ≠ RP) → depth t = 0) as Hplain.
  { induction t as [|x t IH]; intros Ht; [done|]. simpl.
    rewrite IH by (intros c Hc; apply Ht; by right).
    destruct (Ht x) as [H1 H2]; [by left|]. unfold paren_delta.
    by rewrite (proj2 (N.eqb_neq _ _) H1), (proj2 (N.eqb_neq _ _) H2). }
  intros Hs. split; [|by apply Hplain].
  intros k. rewrite Hplain; [done|]. intros c Hc%subseteq_take. by apply Hs.
Qed.

Lemma balanced_wrap s : balanced s → balanced (LP :: s ++ [RP]).
Proof.
  intros [Hs Hs0]. split.
  - intros [|k]; simpl; [done|]. rewrite take_app, depth_app.
    change (paren_delta LP) with 1. specialize (Hs k).
    assert (-1 ≤ depth (take (k - length s) [RP])).
    { destruct (k - length s)%nat; simpl; [lia|]. rewrite take_nil. simpl.
      change (paren_delta RP) with (-1). lia. }
    lia.
  - simpl. rewrite depth_app. simpl.
    change (paren_delta LP) with 1. change (paren_delta RP) with (-1). lia.
Qed.

Lemma balanced_operator op : is_operator op = true → balanced [op].
Proof.
  intros [H1 H2]%operator_not_paren. apply balanced_plain.
  by intros c ->%list_elem_of_singleton.
Qed.

(** ** The keys of the substitution table *)

Section Table.
Context `{U : Unicode}.

(** A key is a balanced span in parentheses whose interior is not an
    atomic proposition. *)
Definition key_ok (k : list N) : Prop :=
  ∃ inner, k = LP :: inner ++ [RP] ∧ is_atomic inner = false ∧ balanced k.

Definition table_ok (subs : gmap (list N) (list N)) : Prop :=
  ∀ k, is_Some (subs !! k) → key_ok k.

Lemma is_atomic_balanced a : is_atomic a = true → balanced a.
Proof.
  intros Ha. apply balanced_plain. intros c Hc.
  destruct (is_atomic_plain a c Ha Hc) as (? & ? & _). done.
Qed.

Lemma operand_balanced subs a : table_ok subs → operand subs a → balanced a.
Proof.
  intros Hok [Ha|Hkey]; [by apply is_atomic_balanced|].
  destruct (Hok a Hkey) as (inner & _ & _ & Hb). done.
Qed.

Lemma is_basic_compound_key_ok subs s :
  table_ok subs → is_basic_compound subs s = true → key_ok s.
Proof.
  intros Hok Hb. destruct (startswith (strip_ends s) NEG) eqn:Hneg.
  - apply is_basic_compound_negation in Hb as (a & -> & Ha); [|done].
    exists (NEG :: a). split_and!; [done| |].
    + by rewrite is_atomic_cons, isalpha_NEG.
    + apply balanced_wrap. apply (balanced_app [NEG]); [by apply balanced_operator|].
      by eapply operand_balanced.
  - apply is_basic_compound_binary in Hb
      as (l & op & r & -> & Hop & _ & _ & _ & _ & Hl & Hr); [|done].
    exists (l ++ op :: r). split_and!; [done|by apply is_atomic_operator_inside|].
    apply balanced_wrap, balanced_app; [by eapply operand_balanced|].
    apply (balanced_app [op]); [by apply balanced_operator|by eapply operand_balanced].
Qed.

Lemma table_ok_empty : table_ok ∅.
Proof. intros k [v Hv]. by rewrite lookup_empty in Hv. Qed.

Lemma loop_body_table_ok p cur p2 cur2 :
  table_ok (substitutions p) → loop_body p cur = Next p2 cur2 →
  table_ok (substitutions p2).
Proof.
  intros Hok (s & e & compound & _ & Hf & _ & Hs & _)%loop_body_Next.
  apply find_first_basic_compound_Some in Hf as (_ & _ & _ & _ & Hb).
  intros k. rewrite Hs, lookup_insert. case_decide as Hk.
  - intros _. subst k. by eapply is_basic_compound_key_ok.
  - apply Hok.
Qed.

Lemma iterate_table_ok n p cur p1 cur1 :
  table_ok (substitutions p) → iterate n p cur = Some (p1, cur1) →
  table_ok (substitutions p1).
Proof.
  revert p cur. induction n as [|n IH]; intros p cur Hok; simpl.
  - by intros [= <- <-].
  - destruct (loop_body p cur) as [| |p2 cur2] eqn:Hbody; [done..|].
    apply IH. by eapply loop_body_table_ok.
Qed.

Lemma reachable_table_ok fuel original p cur n p1 cur1 :
  prologue fuel original = Ok (inr (p, cur)) →
  iterate n p cur = Some (p1, cur1) → table_ok (substitutions p1).
Proof.
  intros [_ [_ Hsubs]]%prologue_inr. apply iterate_table_ok.
  intros k [v Hv]. by destruct (Hsubs k v Hv) as [_ (m & ? & _)]; lia.
Qed.

(** The extractor succeeds on every span that the scanner can return. *)
Lemma extract_components_basic subs s :
  table_ok subs → is_basic_compound subs s = true →
  ∃ op left_ right_, extract_components s = Some (op, left_, right_).
Proof.
  intros Hok Hb. destruct (startswith (strip_ends s) NEG) eqn:Hneg.
  - apply is_basic_compound_negation in Hb as (a & -> & Ha); [|done].
    assert (is_valid_negation (LP :: (NEG :: a) ++ [RP]) = true) as Hvalid;
      [|unfold extract_components;
        rewrite strip_ends_wrap, is_atomic_cons, isalpha_NEG, startswith_cons,
          N.eqb_refl, Hvalid; cbn [andb negb]; eauto].
    apply is_valid_negation_neg. destruct Ha as [Ha|Hkey]; [by left|right].
    destruct (Hok a Hkey) as (inner & -> & Hinner & _). split; [eauto|].
    intros q [= Hq]. by apply app_inv_tail in Hq as <-.
  - pose proof Hb as (l & op & r & -> & Hop & Hl & _ & Hd & _)%is_basic_compound_binary;
      [|done].
    unfold extract_components. rewrite strip_ends_wrap in *.
    rewrite is_atomic_operator_inside, Hneg by done.
    pose proof (extract_loop_spec (l ++ op :: r) [] (l ++ op :: r) 0 eq_refl eq_refl)
      as Hspec.
    simpl in Hspec. change (Z.of_nat 0) with 0 in Hspec.
    specialize (Hspec ltac:(intros j Hj; lia)).
    destruct (extract_loop _ _ 0 0) as [[[op' l'] r']|]; [eauto|].
    exfalso. apply (Hspec (length l)). exists op.
    by rewrite list_lookup_middle, take_app_length.
Qed.

End Table.

(** ** Placeholders *)

Section Placeholders.
Context `{U : Unicode}.

Lemma is_atomic_placeholder n : is_atomic (placeholder n) = true.
Proof.
  unfold placeholder. change (py "X") with [88%N]. simpl app.
  rewrite is_atomic_cons, isalpha_ascii by done. simpl.
  apply forallb_forall. intros c Hc%list_elem_of_In%chars_of_uint_digits.
  rewrite isdigit_ascii by lia. unfold ascii_digit.
  apply andb_true_iff. split; apply N.leb_le; lia.
Qed.

(** [generate_new_atomic] advances the counter by one and returns an
    atomic proposition, so the next scan reads the placeholder as an atom;
    different counters give different placeholders. *)
Theorem generate_new_atomic_atomic (p : parser) :
  atomic_counter (generate_new_atomic p).1 = S (atomic_counter p)
  ∧ is_atomic (generate_new_atomic p).2 = true
  ∧ ∀ q, (generate_new_atomic q).2 = (generate_new_atomic p).2 →
         atomic_counter q = atomic_counter p.
Proof.
  split_and!; [done|apply is_atomic_placeholder|].
  intros q Heq. apply placeholder_inj in Heq. simpl in Heq. lia.
Qed.

(** ** The passes through the main loop *)

(** On every state that a run reaches, a pass through the loop body ends
    the loop on an atomic working string, or rejects because the scanner
    finds no basic compound, or performs a reduction: the rejection for a
    span whose components cannot be extracted never happens. *)
Theorem loop_body_outcomes (fuel : nat) (original : list N) (p : parser)
    (cur : list N) (n : nat) (p1 : parser) (cur1 : list N) :
  prologue fuel original = Ok (inr (p, cur)) →
  iterate n p cur = Some (p1, cur1) →
  (is_atomic cur1 = true ∧ loop_body p1 cur1 = Break)
  ∨ (is_atomic cur1 = false
     ∧ find_first_basic_compound (substitutions p1) cur1 = None
     ∧ loop_body p1 cur1
       = Return (reject (append_step p1 (nl ++ py "Current formula: " ++ cur1))
                        (py "Error: No valid basic compound formula found")))
  ∨ (is_atomic cur1 = false ∧ ∃ p2 cur2, loop_body p1 cur1 = Next p2 cur2).
Proof.
  intros Hpro Hit. pose proof (reachable_table_ok _ _ _ _ _ _ _ Hpro Hit) as Hok.
  unfold loop_body. destruct (is_atomic cur1); [by left|]. right.
  cbn [substitutions append_step].
  destruct (find_first_basic_compound (substitutions p1) cur1)
    as [[[s e] compound]|] eqn:Hf; [right|by left].
  apply find_first_basic_compound_Some in Hf as (_ & _ & _ & _ & Hb).
  destruct (extract_components_basic _ _ Hok Hb) as (op & l & r & ->).
  split; [done|]. cbn [generate_new_atomic]. eauto.
Qed.

Lemma scan_atomics_reverse_steps fuel formula i atomic_vars p p' :
  scan_atomics fuel formula i atomic_vars p = Ok p' →
  reverse_steps p' = reverse_steps p.
Proof.
  revert i atomic_vars p. induction fuel as [|fuel IH]; intros i vars p; [done|]. simpl.
  destruct (i <? _); [|by intros [= ->]].
  destruct (index formula i) as [c| |]; simpl; [|done..].
  destruct (str_isalpha [c]); [|apply IH].
  destruct (scan_digits fuel formula (i + 1)) as [j| |]; simpl; [|done..].
  destruct (is_atomic _ && _); [|apply IH].
  intros Hp'%IH. done.
Qed.

Lemma prologue_reverse_steps fuel original p cur :
  prologue fuel original = Ok (inr (p, cur)) → reverse_steps p = [].
Proof.
  unfold prologue.
  destruct (is_atomic (remove_spaces original)); [done|].
  destruct (_ && is_atomic _); [done|].
  destruct (scan_atomics fuel _ _ _ _) as [p'| |] eqn:Hscan; simpl; [|done..].
  intros [= <- <-]. apply scan_atomics_reverse_steps in Hscan. done.
Qed.

Lemma loop_body_reverse_steps p cur p2 cur2 :
  loop_body p cur = Next p2 cur2 →
  ∃ form, reverse_steps p2
          = (placeholder (S (atomic_counter p)) ++ py " = " ++ LP :: form)
              :: reverse_steps p.
Proof.
  unfold loop_body. destruct (is_atomic cur); [done|].
  cbn [substitutions append_step].
  destruct (find_first_basic_compound (substitutions p) cur) as [[[s e] compound]|]; [|done].
  destruct (extract_components compound) as [[[op l] r]|]; [|done].
  cbn [generate_new_atomic atomic_counter].
  intros [= <- <-]. destruct (op =? NEG)%N; cbn; eauto.
Qed.

(** The entry of the reverse-substitution list at position [i]. *)
Definition reverse_entry (n i : nat) (line : list N) : Prop :=
  (placeholder (n - i) ++ py " = (") `prefix_of` line.

Lemma iterate_reverse_steps n0 n p cur p1 cur1 :
  atomic_counter p = n0 → length (reverse_steps p) = n0 →
  (∀ i line, reverse_steps p !! i = Some line → reverse_entry n0 i line) →
  iterate n p cur = Some (p1, cur1) →
  atomic_counter p1 = (n0 + n)%nat
  ∧ length (reverse_steps p1) = (n0 + n)%nat
  ∧ ∀ i line, reverse_steps p1 !! i = Some line → reverse_entry (n0 + n) i line.
Proof.
  revert n0 p cur. induction n as [|n IH]; intros n0 p cur Hc Hlen Hentries; simpl.
  - intros [= <- <-]. by rewrite Nat.add_0_r.
  - destruct (loop_body p cur) as [| |p2 cur2] eqn:Hbody; [done..|].
    pose proof Hbody as (_ & _ & _ & _ & _ & Hc2 & _)%loop_body_Next.
    apply loop_body_reverse_steps in Hbody as [form Hrev].
    replace (n0 + S n)%nat with (S n0 + n)%nat by lia.
    apply IH; [lia|rewrite Hrev; simpl; lia|].
    intros i line. rewrite Hrev, Hc. destruct i as [|i]; simpl.
    + intros [= <-]. unfold reverse_entry. rewrite Nat.sub_0_r.
      change (py " = (") with (py " = " ++ [LP]).
      exists form. by rewrite <-!app_assoc.
    + intros Hline%Hentries. exact Hline.
Qed.

(** After [n] reductions of a run the counter is [n] and the
    reverse-substitution list has [n] entries, one per reduction and the
    latest first: the entry at position [i] defines the placeholder
    numbered [n - i]. *)
Theorem reverse_steps_count (fuel : nat) (original : list N) (p : parser)
    (cur : list N) (n : nat) (p1 : parser) (cur1 : list N) :
  prologue fuel original = Ok (inr (p, cur)) →
  iterate n p cur = Some (p1, cur1) →
  atomic_counter p1 = n
  ∧ length (reverse_steps p1) = n
  ∧ ∀ i line, reverse_steps p1 !! i = Some line →
      (placeholder (n - i) ++ py " = (") `prefix_of` line.
Proof.
  intros Hpro Hit. pose proof (prologue_reverse_steps _ _ _ _ Hpro) as Hrev.
  apply prologue_inr in Hpro as [_ [Hc _]].
  apply (iterate_reverse_steps 0 n p cur p1 cur1); [done|by rewrite Hrev| |done].
  intros i line. by rewrite Hrev.
Qed.

End Placeholders.

(** ** The verdict of a report *)

(** A report accepts when it ends with the line that declares a
    well-formed formula, and rejects when it ends with the line that
    declares an invalid one. *)
Definition accepted (report : list N) : Prop :=
  py "Therefore, this is a well-formed formula." `suffix_of` report.

Definition rejected (report : list N) : Prop :=
  py "Not a valid formula in P(v)" `suffix_of` report.

Lemma suffix_join_last (sep : list N) (lines : list (list N)) (l s : list N) :
  s `suffix_of` l → s `suffix_of` join sep (lines ++ [l]).
Proof.
  intros Hs. induction lines as [|x lines IH]; [done|].
  change ((x :: lines) ++ [l]) with (x :: (lines ++ [l])).
  destruct (lines ++ [l]) as [|y rest] eqn:Hrest; [by destruct lines|].
  change (join sep (x :: y :: rest)) with (x ++ sep ++ join sep (y :: rest)).
  by do 2 apply suffix_app_r.
Qed.

Lemma accepted_not_rejected report : accepted report → rejected report → False.
Proof.
  intros [a Ha] [r Hr].
  assert (last report = Some 46%N) as H1.
  { rewrite Ha. change (py "Therefore, this is a well-formed formula.")
      with (py "Therefore, this is a well-formed formula" ++ [46%N]).
    by rewrite app_assoc, last_snoc. }
  assert (last report = Some 41%N) as H2.
  { rewrite Hr. change (py "Not a valid formula in P(v)")
      with (py "Not a valid formula in P(v" ++ [41%N]).
    by rewrite app_assoc, last_snoc. }
  congruence.
Qed.

Section Verdict.
Context `{U : Unicode}.

Lemma reject_rejected p error : rejected (reject p error).
Proof.
  unfold reject, rejected. cbn [steps append_step].
  apply (suffix_join_last nl (steps p ++ [error])). by apply suffix_app_r.
Qed.

Lemma loop_body_Return p cur report :
  loop_body p cur = Return report → rejected report.
Proof.
  unfold loop_body. destruct (is_atomic cur); [done|].
  destruct (find_first_basic_compound _ _) as [[[s e] compound]|];
    [|intros [= <-]; apply reject_rejected].
  destruct (extract_components compound) as [[[op l] r]|];
    [|intros [= <-]; apply reject_rejected].
  by destruct (generate_new_atomic _).
Qed.

(** What the main loop returns: a rejection report, or the state in which
    a pass found the working string atomic, after some reductions. *)
Lemma main_loop_result fuel p cur r :
  main_loop fuel p cur = Ok r →
  match r with
  | inr report => rejected report
  | inl (p', cur') =>
    is_atomic cur' = true ∧ ∃ n, iterate n p cur = Some (p', cur')
  end.
Proof.
  revert p cur. induction fuel as [|fuel IH]; intros p cur; [done|]. simpl.
  destruct (loop_body p cur) as [|report|p2 cur2] eqn:Hbody.
  - intros [= <-]. split; [|by exists 0%nat].
    unfold loop_body in Hbody. destruct (is_atomic cur); [done|].
    destruct (find_first_basic_compound _ _) as [[[s e] compound]|]; [|done].
    destruct (extract_components compound) as [[[op l] r']|]; [|done].
    by destruct (generate_new_atomic _).
  - intros [= <-]. by eapply loop_body_Return.
  - intros Hr%IH. destruct r as [[p' cur']|report]; [|done].
    destruct Hr as [Ha [n Hn]]. split; [done|]. exists (S n). simpl. by rewrite Hbody.
Qed.

Lemma epilogue_accepted p cur original :
  is_atomic cur = true → accepted (epilogue p cur original).
Proof.
  intros Ha. unfold epilogue, accepted. rewrite Ha. cbn [steps append_step].
  unfold conclusion.
  change [py "we can conclude that " ++ original ++ py " belongs to P(v)";
          py "Therefore, this is a well-formed formula."]
    with ([py "we can conclude that " ++ original ++ py " belongs to P(v)"]
            ++ [py "Therefore, this is a well-formed formula."]).
  rewrite app_assoc. by apply suffix_join_last.
Qed.

Lemma atomic_report_accepted a : accepted (atomic_report a).
Proof.
  unfold atomic_report, accepted.
  apply (suffix_join_last nl [py "Analyzing formula: " ++ a ++ nl; atomic_fact a]).
  by apply suffix_app_r.
Qed.

(** The ways [solve_formula] returns. *)
Lemma solve_formula_cases fuel original report :
  solve_formula fuel original = Ok report →
  (is_atomic (remove_spaces original) = true
   ∧ report = atomic_report (remove_spaces original))
  ∨ rejected report
  ∨ (∃ p p' cur' n,
       prologue fuel original = Ok (inr (p, remove_spaces original))
       ∧ iterate n p (remove_spaces original) = Some (p', cur')
       ∧ is_atomic cur' = true
       ∧ report = epilogue p' cur' original).
Proof.
  unfold solve_formula.
  destruct (prologue fuel original) as [[r|[p cur]]| |] eqn:Hpro; simpl; [| |done..].
  - intros [= <-]. unfold prologue in Hpro.
    destruct (is_atomic (remove_spaces original)) eqn:Ha.
    { injection Hpro as <-. by left. }
    destruct (_ && is_atomic _).
    { injection Hpro as <-. right. left. apply reject_rejected. }
    by destruct (scan_atomics _ _ _ _ _).
  - pose proof (prologue_inr _ _ _ _ Hpro) as [-> _].
    destruct (main_loop fuel p _) as [r| |] eqn:Hloop; simpl; [|done..].
    apply main_loop_result in Hloop. destruct r as [[p' cur']|r]; intros [= <-].
    + destruct Hloop as [Ha [n Hn]]. right. right. by exists p, p', cur', n.
    + by right; left.
Qed.

(** Every report ends in exactly one verdict: it ends with the acceptance
    line or with the rejection line, never with both. *)
Theorem solve_formula_verdict (fuel : nat) (original report : list N) :
  solve_formula fuel original = Ok report →
  (accepted report ∧ ¬ rejected report) ∨ (rejected report ∧ ¬ accepted report).
Proof.
  intros [[_ ->]|[Hr|(p & p' & cur' & n & _ & _ & Ha & ->)]]%solve_formula_cases.
  - left. split; [apply atomic_report_accepted|].
    exact (accepted_not_rejected _ (atomic_report_accepted _)).
  - right. split; [exact Hr|]. intros Ha. exact (accepted_not_rejected _ Ha Hr).
  - left. split; [exact (epilogue_accepted _ _ _ Ha)|].
    exact (accepted_not_rejected _ (epilogue_accepted _ _ _ Ha)).
Qed.

(** ** Accepted inputs are balanced *)

Lemma plain_depth_zero s k :
  (∀ c, c ∈ s → c ≠ LP ∧ c ≠ RP) → depth (take k s) = 0.
Proof.
  intros Hs. destruct (balanced_plain (take k s)) as [_ ->]; [|done].
  intros c Hc%subseteq_take. by apply Hs.
Qed.

Lemma prefix_depth_app_l pre rest k :
  (∀ j, 0 ≤ depth (take j (pre ++ rest))) → 0 ≤ depth (take k pre).
Proof.
  intros Hpre. destruct (decide (k ≤ length pre)%nat) as [Hle|Hgt].
  - specialize (Hpre k). by rewrite take_app_le in Hpre.
  - specialize (Hpre (length pre)). rewrite take_app_length in Hpre.
    rewrite take_ge by lia. done.
Qed.

Lemma balanced_replace pre x c post :
  (∀ k, depth (take k x) = 0) → balanced c →
  balanced (pre ++ x ++ post) → balanced (pre ++ c ++ post).
Proof.
  intros Hx [Hc Hc0] [Hpre Hend].
  assert (depth x = 0) as Hx0.
  { specialize (Hx (length x)). by rewrite take_ge in Hx. }
  split.
  - intros k. rewrite !take_app, !depth_app.
    pose proof (Hc (k - length pre)%nat) as Hc1.
    pose proof (prefix_depth_app_l pre (x ++ post) k Hpre) as Hp1.
    destruct (decide (k ≤ length pre + length c)%nat) as [Hle|Hgt].
    + replace (k - length pre - length c)%nat with 0%nat by lia. simpl. lia.
    + specialize (Hpre (length pre + length x + (k - length pre - length c))%nat).
      rewrite !take_app, !depth_app in Hpre.
      rewrite (take_ge pre) in Hpre by lia. rewrite (take_ge pre) by lia.
      rewrite Hx in Hpre. rewrite (take_ge c) by lia.
      replace (length pre + length x + (k - length pre - length c) - length pre - length x)%nat
        with (k - length pre - length c)%nat in Hpre by lia.
      lia.
  - rewrite !depth_app in *. lia.
Qed.

Lemma loop_body_balanced p cur p2 cur2 :
  table_ok (substitutions p) → loop_body p cur = Next p2 cur2 →
  balanced cur2 → balanced cur.
Proof.
  intros Hok (s & e & compound & _ & Hf & _ & _ & ->)%loop_body_Next Hb.
  apply find_first_basic_compound_Some in Hf as (Hse & He & _ & -> & Hbasic).
  rewrite (take_slice_drop cur s e) by lia.
  pose proof (is_basic_compound_key_ok _ _ Hok Hbasic) as (inner & _ & _ & Hbal).
  eapply balanced_replace; [|exact Hbal|exact Hb].
  intros k. apply plain_depth_zero. intros c Hc.
  by destruct (is_atomic_plain _ c (is_atomic_placeholder _) Hc) as (? & ? & _).
Qed.

Lemma iterate_balanced n p cur p1 cur1 :
  table_ok (substitutions p) → iterate n p cur = Some (p1, cur1) →
  balanced cur1 → balanced cur.
Proof.
  revert p cur. induction n as [|n IH]; intros p cur Hok; simpl.
  - by intros [= <- <-].
  - destruct (loop_body p cur) as [| |p2 cur2] eqn:Hbody; [done..|].
    intros Hit Hb. eapply loop_body_balanced; [done..|].
    eapply IH; [by eapply loop_body_table_ok|done..].
Qed.

(** Whatever [solve_formula] accepts has balanced parentheses: the check
    that [check_parentheses] makes, which [solve_formula] does not call,
    holds of every accepted input (after the removal of spaces). *)
Theorem solve_formula_accepted_balanced (fuel : nat) (original report : list N) :
  solve_formula fuel original = Ok report → accepted report →
  check_parentheses (remove_spaces original) = true.
Proof.
  intros [[Ha _]|[Hr|(p & p' & cur' & n & Hpro & Hit & Ha & _)]]%solve_formula_cases Hacc.
  - by apply check_parentheses_true, is_atomic_balanced.
  - destruct (accepted_not_rejected report Hacc Hr).
  - apply check_parentheses_true. eapply iterate_balanced; [|done|by apply is_atomic_balanced].
    apply prologue_inr in Hpro as [_ [_ Hsubs]].
    intros k [v Hv]. by destruct (Hsubs k v Hv) as [_ (m & ? & _)]; lia.
Qed.

End Verdict.

(** ** The formulas of the grammar *)

Section Grammar.
Context `{U : Unicode}.

(** The well-formed formulas: the atomic propositions, [(¬φ)] for a
    formula [φ], and [(φ∘ψ)] for formulas [φ], [ψ] and a binary
    connective. *)
Inductive wff : list N → Prop :=
| wff_atom a : is_atomic a = true → wff a
| wff_neg φ : wff φ → wff (LP :: (NEG :: φ) ++ [RP])
| wff_bin φ op ψ :
    wff φ → is_operator op = true → op ≠ NEG → wff ψ →
    wff (LP :: (φ ++ op :: ψ) ++ [RP]).

Lemma wff_balanced φ : wff φ → balanced φ.
Proof.
  induction 1 as [a Ha|φ _ IH|φ op ψ _ IHφ Hop _ _ IHψ].
  - by apply is_atomic_balanced.
  - apply balanced_wrap, (balanced_app [NEG]); [by apply balanced_operator|done].
  - apply balanced_wrap, balanced_app; [done|].
    apply (balanced_app [op]); [by apply balanced_operator|done].
Qed.

Lemma wff_no_space φ : wff φ → SPACE ∉ φ.
Proof.
  induction 1 as [a Ha|φ _ IH|φ op ψ _ IHφ Hop _ _ IHψ].
  - by apply is_atomic_no_space.
  - rewrite not_elem_of_cons, not_elem_of_app, not_elem_of_cons.
    split_and!; [done|done|done|]. by intros ?%list_elem_of_singleton.
  - rewrite not_elem_of_cons, !not_elem_of_app, not_elem_of_cons.
    split_and!; [done|done| |done|by intros ?%list_elem_of_singleton].
    intros <-. done.
Qed.

(** A formula that is not atomic is a balanced interior, itself not
    atomic, in a pair of parentheses. *)
Lemma wff_compound φ :
  wff φ → is_atomic φ = false →
  ∃ body, φ = LP :: body ++ [RP] ∧ balanced body ∧ is_atomic body = false.
Proof.
  intros [a Ha|ψ Hψ|ψ op χ Hψ Hop _ Hχ] Hφ; [congruence| |].
  - exists (NEG :: ψ). split_and!; [done| |by rewrite is_atomic_cons, isalpha_NEG].
    apply (balanced_app [NEG]); [by apply balanced_operator|by apply wff_balanced].
  - exists (ψ ++ op :: χ). split_and!; [done| |by apply is_atomic_operator_inside].
    apply balanced_app; [by apply wff_balanced|].
    apply (balanced_app [op]); [by apply balanced_operator|by apply wff_balanced].
Qed.

End Grammar.

(** ** The close of a balanced span *)

Lemma find_subformula_end_loop_body body post i count :
  (∀ k, 1 ≤ count + depth (take k body)) → count + depth body = 1 →
  find_subformula_end_loop (body ++ RP :: post) i count = i + Z.of_nat (length body).
Proof.
  revert i count. induction body as [|c body IH]; intros i count Hpre Hend; simpl.
  - simpl in Hend. assert (count = 1) as -> by lia.
    change (RP =? LP)%N with false. change (RP =? RP)%N with true. simpl. lia.
  - simpl in Hend.
    assert (∀ count', count' = count + paren_delta c →
            find_subformula_end_loop (body ++ RP :: post) (i + 1) count'
            = i + Z.pos (Pos.of_succ_nat (length body))) as Hnext.
    { intros count' ->. rewrite IH; [lia| |lia].
      intros k. specialize (Hpre (S k)). simpl in Hpre. lia. }
    pose proof (Hpre 1%nat) as H1. simpl in H1.
    destruct (c =? LP)%N eqn:HLP.
    { apply Hnext. unfold paren_delta. by rewrite HLP. }
    destruct (c =? RP)%N eqn:HRP.
    + assert (paren_delta c = -1) as Hd by (unfold paren_delta; by rewrite HLP, HRP).
      destruct (count - 1 =? 0) eqn:Hz; [apply Z.eqb_eq in Hz; lia|].
      apply Hnext. lia.
    + apply Hnext. unfold paren_delta. rewrite HLP, HRP. lia.
Qed.

Lemma find_subformula_end_span pre body post :
  balanced body →
  find_subformula_end (pre ++ (LP :: body ++ [RP]) ++ post) (Z.of_nat (length pre))
  = Z.of_nat (length pre + length body + 1).
Proof.
  intros [Hpre Hend]. unfold find_subformula_end.
  replace (Z.to_nat (Z.of_nat (length pre) + 1)) with (length pre + 1)%nat by lia.
  rewrite <-drop_drop, drop_app_length. simpl. rewrite drop_0, <-app_assoc. simpl.
  rewrite find_subformula_end_loop_body; [lia| |lia].
  intros k. specialize (Hpre k). lia.
Qed.

Lemma slice_span pre mid post :
  slice (pre ++ mid ++ post) (Z.of_nat (length pre))
        (Z.of_nat (length pre + length mid)) = mid.
Proof.
  unfold slice. rewrite !Nat2Z.id, drop_app_length.
  replace (length pre + length mid - length pre)%nat with (length mid) by lia.
  by rewrite take_app_length.
Qed.

(** Equations between concatenations that differ in bracketing only. *)
Ltac list_norm := repeat (progress (rewrite <-?app_assoc; cbn [app])).
Ltac list_norm_in H := repeat (progress (rewrite <-?app_assoc in H; cbn [app] in H)).

Section Occurrences.
Context `{U : Unicode}.

(** Every opening parenthesis of a formula opens a subformula, which any
    formula may replace. *)
Lemma wff_paren_occurrence cur s :
  wff cur → cur !! s = Some LP →
  ∃ pre body post,
    cur = pre ++ (LP :: body ++ [RP]) ++ post
    ∧ length pre = s
    ∧ balanced body
    ∧ ∀ χ, wff χ → wff (pre ++ χ ++ post).
Proof.
  intros Hwff. revert s.
  induction Hwff as [a Ha|φ Hφ IH|φ op ψ Hφ IHφ Hop Hneg Hψ IHψ]; intros s Hs.
  - apply list_elem_of_lookup_2 in Hs.
    by destruct (is_atomic_plain a LP Ha Hs) as [? _].
  - destruct s as [|[|s]]; simpl in Hs.
    + exists [], (NEG :: φ), []. split_and!; [by rewrite app_nil_r|done| |].
      * apply (balanced_app [NEG]); [by apply balanced_operator|by apply wff_balanced].
      * intros χ Hχ. by rewrite app_nil_r.
    + by injection Hs.
    + apply lookup_app_Some in Hs as [Hs|[_ Hs]].
      * destruct (IH s Hs) as (pre & body & post & -> & <- & Hb & Hctx).
        exists (LP :: NEG :: pre), body, (post ++ [RP]). split_and!; [|done|done|].
        -- by list_norm.
        -- intros χ Hχ. specialize (Hctx χ Hχ). apply wff_neg in Hctx.
           list_norm_in Hctx. by list_norm.
      * destruct (s - length φ)%nat; [by injection Hs|done].
  - destruct s as [|s]; simpl in Hs.
    + exists [], (φ ++ op :: ψ), []. split_and!; [by rewrite app_nil_r|done| |].
      * apply balanced_app; [by apply wff_balanced|].
        apply (balanced_app [op]); [by apply balanced_operator|by apply wff_balanced].
      * intros χ Hχ. by rewrite app_nil_r.
    + apply lookup_app_Some in Hs as [Hs|[_ Hs]];
        [|destruct (s - length (φ ++ op :: ψ))%nat; [by injection Hs|done]].
      apply lookup_app_Some in Hs as [Hs|[Hge Hs]].
      * destruct (IHφ s Hs) as (pre & body & post & -> & <- & Hb & Hctx).
        exists (LP :: pre), body, (post ++ op :: ψ ++ [RP]). split_and!; [|done|done|].
        -- by list_norm.
        -- intros χ Hχ. specialize (Hctx χ Hχ).
           pose proof (wff_bin _ op ψ Hctx Hop Hneg Hψ) as Hall.
           list_norm_in Hall. by list_norm.
      * destruct (s - length φ)%nat as [|s'] eqn:Hs'; simpl in Hs.
        { injection Hs as ->. by destruct (operator_not_paren LP Hop). }
        destruct (IHψ s' Hs) as (pre & body & post & -> & <- & Hb & Hctx).
        exists (LP :: φ ++ op :: pre), body, (post ++ [RP]). split_and!; [| |done|].
        -- by list_norm.
        -- simpl. rewrite length_app. simpl. lia.
        -- intros χ Hχ. specialize (Hctx χ Hχ).
           pose proof (wff_bin φ op _ Hφ Hop Hneg Hctx) as Hall.
           list_norm_in Hall. by list_norm.
Qed.

(** The span that the scanner returns ends at the matching parenthesis. *)
Lemma find_first_loop_end subs formula rest i ml cs ce cl :
  (cs = -1 ∨ ce = find_subformula_end formula cs + 1) →
  let r := find_first_loop subs formula rest i ml cs ce cl in
  r.1 = -1 ∨ r.2 = find_subformula_end formula r.1 + 1.
Proof.
  revert i ml cs ce cl. induction rest as [|c rest IH]; intros i ml cs ce cl Hc;
    simpl; [done|].
  destruct (c =? LP)%N; [|destruct (c =? RP)%N; by apply IH].
  destruct (ml <=? cl + 1); [|by apply IH].
  destruct (negb (find_subformula_end formula i =? -1)); [|by apply IH].
  destruct (is_basic_compound subs _); apply IH; [by right|done].
Qed.

Lemma find_first_basic_compound_end subs formula s e compound :
  find_first_basic_compound subs formula = Some (s, e, compound) →
  e = find_subformula_end formula s + 1.
Proof.
  unfold find_first_basic_compound.
  pose proof (find_first_loop_end subs formula formula 0 0 (-1) (-1) 0) as Hend.
  destruct (find_first_loop _ _ _ _ _ _ _ _) as [cs ce]. simpl in Hend.
  destruct (negb (cs =? -1) && negb (ce =? -1)) eqn:Hne; [|done].
  intros [= <- <- <-].
  apply andb_true_iff in Hne as [Hs%negb_true_iff%Z.eqb_neq _].
  destruct Hend as [?|?]; [by left|done|done].
Qed.

(** A reduction of a formula gives a formula. *)
Lemma loop_body_wff p cur p2 cur2 :
  wff cur → loop_body p cur = Next p2 cur2 → wff cur2.
Proof.
  intros Hwff (s & e & compound & _ & Hf & _ & _ & ->)%loop_body_Next.
  pose proof (find_first_basic_compound_end _ _ _ _ _ Hf) as He.
  apply find_first_basic_compound_Some in Hf as (Hse & _ & HLP & _ & _).
  destruct (wff_paren_occurrence cur (Z.to_nat s) Hwff HLP)
    as (pre & body & post & -> & Hlen & Hb & Hctx).
  replace s with (Z.of_nat (length pre)) in He by lia.
  rewrite find_subformula_end_span in He by done.
  replace (Z.to_nat s) with (length pre) by lia.
  rewrite take_app_length.
  replace (Z.to_nat e) with (length pre + length (LP :: body ++ [RP]))%nat
    by (simpl; rewrite length_app; simpl; lia).
  rewrite <-drop_drop, drop_app_length, drop_app_length.
  apply Hctx, wff_atom, is_atomic_placeholder.
Qed.

End Occurrences.

Section Completeness.
Context `{U : Unicode}.

(** ** Compounds of atomic propositions are basic *)

Lemma split_parts_plain seg rest parts pc current operator :
  (∀ c, c ∈ seg → c ≠ LP ∧ c ≠ RP ∧ is_operator c = false) →
  split_parts (seg ++ rest) parts pc current operator
  = split_parts rest parts pc (current ++ seg) operator.
Proof.
  revert current. induction seg as [|c seg IH]; intros current Hseg; simpl.
  - by rewrite app_nil_r.
  - destruct (Hseg c) as (H1 & H2 & H3); [by left|].
    rewrite (proj2 (N.eqb_neq _ _) H1), (proj2 (N.eqb_neq _ _) H2), H3. simpl.
    rewrite IH by (intros x Hx; apply Hseg; by right).
    by rewrite <-app_assoc.
Qed.

Lemma is_basic_compound_negation_atom subs a :
  is_atomic a = true → is_basic_compound subs (LP :: (NEG :: a) ++ [RP]) = true.
Proof.
  intros Ha. unfold is_basic_compound.
  assert (startswith (LP :: (NEG :: a) ++ [RP]) LP
          && endswith (LP :: (NEG :: a) ++ [RP]) RP = true) as ->
    by (apply wrapped_spec; eauto).
  rewrite strip_ends_wrap, startswith_cons, N.eqb_refl. cbn [negb drop].
  by rewrite drop_0, Ha.
Qed.

Lemma split_parts_plain_end seg parts pc current operator :
  (∀ c, c ∈ seg → c ≠ LP ∧ c ≠ RP ∧ is_operator c = false) →
  split_parts seg parts pc current operator = Some (parts, current ++ seg, operator).
Proof.
  intros Hseg. rewrite <-(app_nil_r seg) at 1. by rewrite split_parts_plain.
Qed.

Lemma is_basic_compound_binary_atoms subs a op b :
  is_atomic a = true → is_operator op = true → is_atomic b = true →
  is_basic_compound subs (LP :: (a ++ op :: b) ++ [RP]) = true.
Proof.
  intros Ha Hop Hb. unfold is_basic_compound.
  assert (startswith (LP :: (a ++ op :: b) ++ [RP]) LP
          && endswith (LP :: (a ++ op :: b) ++ [RP]) RP = true) as ->
    by (apply wrapped_spec; eauto).
  rewrite strip_ends_wrap. cbn [negb].
  assert (a ≠ []) as Hane by (by intros ->).
  assert (b ≠ []) as Hbne by (by intros ->).
  assert (startswith (a ++ op :: b) NEG = false) as ->.
  { pose proof Ha as (c & ds & -> & Hc & _)%is_atomic_spec.
    simpl. apply N.eqb_neq. intros ->. by rewrite isalpha_NEG in Hc. }
  rewrite split_parts_plain by (intros x Hx; by apply (is_atomic_plain _ x Ha)).
  destruct (operator_not_paren op Hop) as [H1 H2].
  cbn [split_parts app].
  rewrite (proj2 (N.eqb_neq _ _) H1), (proj2 (N.eqb_neq _ _) H2), Hop.
  cbn [andb Z.eqb].
  rewrite (bool_decide_eq_false_2 (a = [])) by done.
  rewrite split_parts_plain_end by (intros x Hx; by apply (is_atomic_plain _ x Hb)).
  cbn [app].
  rewrite (bool_decide_eq_false_2 (b = [])) by done.
  rewrite (bool_decide_eq_false_2 (Some op = None)) by done.
  cbn [app length Nat.eqb negb orb forallb].
  by rewrite Ha, Hb.
Qed.

(** A formula that is not atomic holds a basic compound. *)
Lemma wff_has_basic subs cur :
  wff cur → is_atomic cur = false →
  ∃ pre body post,
    cur = pre ++ (LP :: body ++ [RP]) ++ post
    ∧ balanced body
    ∧ 0 ≤ depth pre
    ∧ is_basic_compound subs (LP :: body ++ [RP]) = true.
Proof.
  induction 1 as [a Ha|φ Hφ IH|φ op ψ Hφ IHφ Hop Hneg Hψ IHψ]; intros Hcur.
  - congruence.
  - destruct (is_atomic φ) eqn:Ha.
    + exists [], (NEG :: φ), []. split_and!; [by rewrite app_nil_r| |done|].
      * apply (balanced_app [NEG]); [by apply balanced_operator|by apply wff_balanced].
      * by apply is_basic_compound_negation_atom.
    + destruct IH as (pre & body & post & -> & Hb & Hd & Hbasic); [done|].
      exists (LP :: NEG :: pre), body, (post ++ [RP]). split_and!; [by list_norm|done| |done].
      simpl. change (paren_delta LP) with 1. change (paren_delta NEG) with 0. lia.
  - destruct (is_atomic φ) eqn:Ha; [destruct (is_atomic ψ) eqn:Hb|].
    + exists [], (φ ++ op :: ψ), []. split_and!; [by rewrite app_nil_r| |done|].
      * apply balanced_app; [by apply wff_balanced|].
        apply (balanced_app [op]); [by apply balanced_operator|by apply wff_balanced].
      * by apply is_basic_compound_binary_atoms.
    + destruct IHψ as (pre & body & post & -> & Hbody & Hd & Hbasic); [done|].
      exists (LP :: φ ++ op :: pre), body, (post ++ [RP]).
      split_and!; [by list_norm|done| |done].
      simpl. rewrite depth_app. simpl.
      destruct (wff_balanced φ Hφ) as [_ ->].
      change (paren_delta LP) with 1. rewrite (paren_delta_operator op Hop). lia.
    + destruct IHφ as (pre & body & post & -> & Hbody & Hd & Hbasic); [done|].
      exists (LP :: pre), body, (post ++ op :: ψ ++ [RP]).
      split_and!; [by list_norm|done| |done].
      simpl. change (paren_delta LP) with 1. lia.
Qed.

(** ** The scanner finds a basic compound when there is one *)

Lemma find_first_loop_set subs formula rest i ml cs ce cl :
  0 ≤ i → cs ≠ -1 ∧ ce ≠ -1 →
  let r := find_first_loop subs formula rest i ml cs ce cl in
  r.1 ≠ -1 ∧ r.2 ≠ -1.
Proof.
  revert i ml cs ce cl. induction rest as [|c rest IH]; intros i ml cs ce cl Hi Hset;
    simpl; [done|].
  destruct (c =? LP)%N; [|destruct (c =? RP)%N; apply IH; (lia || done)].
  destruct (ml <=? cl + 1); [|apply IH; (lia || done)].
  pose proof (find_subformula_end_range formula i Hi) as Hend. simpl in Hend.
  destruct (negb (find_subformula_end formula i =? -1)) eqn:Hne; [|apply IH; (lia || done)].
  apply negb_true_iff, Z.eqb_neq in Hne.
  destruct (is_basic_compound subs _); apply IH; (lia || done).
Qed.

Lemma find_first_loop_finds subs formula pre rest k ml cs ce cl :
  formula = pre ++ rest → cl = depth pre →
  (ml = 0 ∨ (cs ≠ -1 ∧ ce ≠ -1)) →
  rest !! k = Some LP →
  0 ≤ depth (take (length pre + k) formula) →
  find_subformula_end formula (Z.of_nat (length pre + k)) ≠ -1 →
  is_basic_compound subs
    (slice formula (Z.of_nat (length pre + k))
           (find_subformula_end formula (Z.of_nat (length pre + k)) + 1)) = true →
  let r := find_first_loop subs formula rest (Z.of_nat (length pre)) ml cs ce cl in
  r.1 ≠ -1 ∧ r.2 ≠ -1.
Proof.
  revert pre k ml cs ce cl.
  induction rest as [|c rest IH]; intros pre k ml cs ce cl Hformula Hcl Hinv Hk Hd Hend Hb;
    [done|].
  assert (formula = (pre ++ [c]) ++ rest) as Hformula' by by rewrite <-app_assoc.
  assert (Z.of_nat (length pre) + 1 = Z.of_nat (length (pre ++ [c]))) as Hlen
    by (rewrite length_app; simpl; lia).
  destruct k as [|k].
  - injection Hk as ->. rewrite Nat.add_0_r in *.
    rewrite Hformula, take_app_length in Hd.
    cbn [find_first_loop]. change (LP =? LP)%N with true. cbn match.
    destruct (ml <=? cl + 1) eqn:Hml.
    + rewrite (proj2 (Z.eqb_neq _ _) Hend), Hb. cbn [negb].
      apply find_first_loop_set; [lia|]. split; [lia|].
      pose proof (find_subformula_end_range formula (Z.of_nat (length pre))) as Hr.
      simpl in Hr. lia.
    + apply Z.leb_gt in Hml. apply find_first_loop_set; [lia|].
      destruct Hinv as [->|?]; [lia|done].
  - simpl in Hk.
    assert (∀ ml' cs' ce' cl',
      cl' = depth (pre ++ [c]) → (ml' = 0 ∨ (cs' ≠ -1 ∧ ce' ≠ -1)) →
      let r := find_first_loop subs formula rest (Z.of_nat (length pre) + 1) ml' cs' ce' cl' in
      r.1 ≠ -1 ∧ r.2 ≠ -1) as Hnext.
    { intros ml' cs' ce' cl' Hcl' Hinv'. rewrite Hlen.
      apply (IH (pre ++ [c]) k); try done.
      - rewrite length_app. simpl. by replace (length pre + 1 + k)%nat with (length pre + S k)%nat by lia.
      - rewrite length_app. simpl. by replace (length pre + 1 + k)%nat with (length pre + S k)%nat by lia.
      - rewrite length_app. simpl. by replace (length pre + 1 + k)%nat with (length pre + S k)%nat by lia. }
    cbn [find_first_loop]. rewrite depth_snoc in Hnext.
    destruct (c =? LP)%N eqn:HLP.
    { apply N.eqb_eq in HLP as ->. change (paren_delta LP) with 1 in Hnext.
      destruct (ml <=? cl + 1); [|apply Hnext; [lia|done]].
      pose proof (find_subformula_end_range formula (Z.of_nat (length pre))) as Hr.
      simpl in Hr.
      destruct (negb (find_subformula_end formula (Z.of_nat (length pre)) =? -1)) eqn:Hne;
        [|apply Hnext; [lia|done]].
      apply negb_true_iff, Z.eqb_neq in Hne.
      destruct (is_basic_compound subs (slice formula (Z.of_nat (length pre)) _));
        apply Hnext; try lia; try done. }
    destruct (c =? RP)%N eqn:HRP.
    { apply N.eqb_eq in HRP as ->. change (paren_delta RP) with (-1) in Hnext.
      apply Hnext; [lia|done]. }
    apply Hnext; [|done]. unfold paren_delta. rewrite HLP, HRP. lia.
Qed.

Lemma find_first_basic_compound_wff subs cur :
  wff cur → is_atomic cur = false →
  ∃ s e compound, find_first_basic_compound subs cur = Some (s, e, compound).
Proof.
  intros Hwff Ha.
  destruct (wff_has_basic subs cur Hwff Ha) as (pre & body & post & Hcur & Hb & Hd & Hbasic).
  pose proof (find_subformula_end_span pre body post Hb) as Hend. rewrite <-Hcur in Hend.
  pose proof (find_first_loop_finds subs cur [] cur (length pre) 0 (-1) (-1) 0
                eq_refl eq_refl) as Hfind.
  cbn [length Nat.add] in Hfind. change (Z.of_nat 0) with 0 in Hfind.
  unfold find_first_basic_compound.
  destruct (find_first_loop subs cur cur 0 0 (-1) (-1) 0) as [cs ce].
  destruct Hfind as [Hcs Hce].
  - by left.
  - rewrite Hcur. cbn [app]. by rewrite list_lookup_middle.
  - rewrite Hcur at 1. by rewrite take_app_length.
  - rewrite Hend. lia.
  - rewrite Hend.
    replace (Z.of_nat (length pre + length body + 1) + 1)
      with (Z.of_nat (length pre + length (LP :: body ++ [RP])))
      by (simpl; rewrite length_app; simpl; lia).
    rewrite Hcur at 1. by rewrite slice_span.
  - simpl in Hcs, Hce.
    rewrite (proj2 (Z.eqb_neq _ _) Hcs), (proj2 (Z.eqb_neq _ _) Hce). simpl. eauto.
Qed.

End Completeness.

Section Acceptance.
Context `{U : Unicode}.

(** A pass through the loop body on a formula that is not atomic is a
    reduction. *)
Lemma loop_body_wff_Next p cur :
  table_ok (substitutions p) → wff cur → is_atomic cur = false →
  ∃ p2 cur2, loop_body p cur = Next p2 cur2.
Proof.
  intros Hok Hwff Ha.
  destruct (find_first_basic_compound_wff (substitutions p) cur Hwff Ha)
    as (s & e & compound & Hf).
  unfold loop_body. rewrite Ha. cbn [substitutions append_step]. rewrite Hf.
  apply find_first_basic_compound_Some in Hf as (_ & _ & _ & _ & Hb).
  destruct (extract_components_basic _ _ Hok Hb) as (op & l & r & ->).
  cbn [generate_new_atomic]. eauto.
Qed.

Lemma main_loop_wff fuel p cur :
  table_ok (substitutions p) → wff cur → (open_parens cur < fuel)%nat →
  ∃ p' cur', main_loop fuel p cur = Ok (inl (p', cur')) ∧ is_atomic cur' = true.
Proof.
  revert p cur. induction fuel as [|fuel IH]; intros p cur Hok Hwff Hfuel; [lia|].
  cbn [main_loop]. destruct (is_atomic cur) eqn:Ha.
  - assert (loop_body p cur = Break) as -> by (unfold loop_body; by rewrite Ha).
    eauto.
  - destruct (loop_body_wff_Next p cur Hok Hwff Ha) as (p2 & cur2 & Hbody).
    rewrite Hbody. apply IH.
    + by eapply loop_body_table_ok.
    + by eapply loop_body_wff.
    + apply loop_body_open_parens in Hbody. lia.
Qed.

(** Every formula of the grammar is accepted: given fuel above its
    length, [solve_formula] returns a report that ends with the acceptance
    line. *)
Theorem solve_formula_accepts_wff (fuel : nat) (formula : list N) :
  wff formula → (length formula < fuel)%nat →
  ∃ report, solve_formula fuel formula = Ok report ∧ accepted report.
Proof.
  intros Hwff Hfuel. destruct (is_atomic formula) eqn:Ha.
  { exists (atomic_report formula).
    split; [by apply solve_formula_atomic|apply atomic_report_accepted]. }
  destruct (wff_compound formula Hwff Ha) as (body & Hformula & _ & Hbody).
  pose proof (remove_spaces_id formula (wff_no_space formula Hwff)) as Hsp.
  destruct (prologue_Ok fuel formula Hfuel) as [[report Hr]|(p & Hp & _ & Hsubs)].
  { exfalso. revert Hr. unfold prologue. rewrite Hsp, Ha, Hformula, strip_ends_wrap, Hbody.
    rewrite andb_false_r. by destruct (scan_atomics _ _ _ _ _). }
  rewrite Hsp in Hp.
  destruct (main_loop_wff fuel p formula) as (p' & cur' & Hloop & Ha'); [|done| |].
  { rewrite Hsubs. apply table_ok_empty. }
  { pose proof (open_parens_le_length formula). lia. }
  exists (epilogue p' cur' formula). split; [|by apply epilogue_accepted].
  unfold solve_formula. by rewrite Hp, bind_Ok, Hloop, bind_Ok.
Qed.

End Acceptance.

Lemma wff_example :
  wff (U:=ascii_only) (py "((P⇒Q)∨(¬R))").
Proof.
  change (py "((P⇒Q)∨(¬R))")
    with (LP :: ((LP :: ([80%N] ++ IMPL :: [81%N]) ++ [RP])
                   ++ OR :: (LP :: (NEG :: [82%N]) ++ [RP])) ++ [RP]).
  apply wff_bin; [|reflexivity|discriminate|].
  - apply wff_bin; [by apply wff_atom|reflexivity|discriminate|by apply wff_atom].
  - apply wff_neg. by apply wff_atom.
Defined.

Lemma solve_formula_accepts_wff_witness :
  ∃ report, solve_formula (U:=ascii_only) 14 (py "((P⇒Q)∨(¬R))") = Ok report
            ∧ accepted report.
Proof.
  apply (@solve_formula_accepts_wff ascii_only 14 (py "((P⇒Q)∨(¬R))") wff_example).
  vm_compute. lia.
Defined.

Lemma loop_body_outcomes_witness :
  match prologue (U:=ascii_only) 8 (py "(P∧Q)") with
  | Ok (inr (p, cur)) =>
    (is_atomic (U:=ascii_only) cur = true ∧ loop_body (U:=ascii_only) p cur = Break)
    ∨ (is_atomic (U:=ascii_only) cur = false
       ∧ find_first_basic_compound (U:=ascii_only) (substitutions p) cur = None
       ∧ loop_body (U:=ascii_only) p cur
         = Return (reject (append_step p (nl ++ py "Current formula: " ++ cur))
                          (py "Error: No valid basic compound formula found")))
    ∨ (is_atomic (U:=ascii_only) cur = false
       ∧ ∃ p2 cur2, loop_body (U:=ascii_only) p cur = Next p2 cur2)
  | _ => False
  end.
Proof.
  destruct (prologue (U:=ascii_only) 8 (py "(P∧Q)")) as [[r|[p cur]]| |] eqn:Hpro;
    try (vm_compute in Hpro; discriminate Hpro).
  exact (@loop_body_outcomes ascii_only 8 (py "(P∧Q)") p cur 0 p cur Hpro eq_refl).
Defined.

Lemma reverse_steps_count_witness :
  match prologue (U:=ascii_only) 8 (py "(P∧Q)") with
  | Ok (inr (p, cur)) =>
    match iterate (U:=ascii_only) 1 p cur with
    | Some (p1, cur1) => atomic_counter p1 = 1%nat ∧ length (reverse_steps p1) = 1%nat
    | None => False
    end
  | _ => False
  end.
Proof.
  destruct (prologue (U:=ascii_only) 8 (py "(P∧Q)")) as [[r|[p cur]]| |] eqn:Hpro;
    try (vm_compute in Hpro; discriminate Hpro).
  destruct (iterate (U:=ascii_only) 1 p cur) as [[p1 cur1]|] eqn:Hit.
  - destruct (@reverse_steps_count ascii_only 8 (py "(P∧Q)") p cur 1 p1 cur1 Hpro Hit)
      as (Hc & Hl & _).
    split; [exact Hc|exact Hl].
  - vm_compute in Hpro. injection Hpro as <- <-. vm_compute in Hit. discriminate Hit.
Defined.

Lemma solve_formula_verdict_witness :
  ∃ report,
    solve_formula (U:=ascii_only) 6 (py "(P∧Q") = Ok report
    ∧ ((accepted report ∧ ¬ rejected report) ∨ (rejected report ∧ ¬ accepted report)).
Proof.
  eexists. split; [vm_compute; reflexivity|].
  eapply (@solve_formula_verdict ascii_only 6 (py "(P∧Q")). vm_compute. reflexivity.
Defined.

Lemma solve_formula_accepted_balanced_witness :
  ∃ report,
    solve_formula (U:=ascii_only) 8 (py "(P∧Q)") = Ok report
    ∧ accepted report
    ∧ check_parentheses (remove_spaces (py "(P∧Q)")) = true.
Proof.
  eexists. split; [vm_compute; reflexivity|].
  assert (∀ r, solve_formula (U:=ascii_only) 8 (py "(P∧Q)") = Ok r →
               accepted r →
               accepted r ∧ check_parentheses (remove_spaces (py "(P∧Q)")) = true) as H.
  { intros r Hr Ha. split; [exact Ha|].
    exact (@solve_formula_accepted_balanced ascii_only 8 (py "(P∧Q)") r Hr Ha). }
  apply H; [vm_compute; reflexivity|].
  apply (bool_decide_unpack _). vm_compute. reflexivity.
Defined.


(** ** The choice of the scanner *)

Lemma find_subformula_end_RP formula start :
  0 ≤ start → find_subformula_end formula start ≠ -1 →
  formula !! Z.to_nat (find_subformula_end formula start) = Some RP.
Proof.
  intros Hstart Hr. unfold find_subformula_end in *.
  destruct (find_subformula_end_loop_spec
              (drop (Z.to_nat (start + 1)) formula) (start + 1) 1)
    as [[Hr' _]|(k & Hr' & Hk & _)]; [lia|done|].
  rewrite Hr'. rewrite lookup_drop in Hk. rewrite <-Hk. f_equal. lia.
Qed.

Section Choice.
Context `{U : Unicode}.

(** Position [j] opens a span that the scanner can return: an opening
    parenthesis with a matching close, around a basic compound. *)
Definition qualifies (subs : gmap (list N) (list N)) (formula : list N) (j : nat) : Prop :=
  formula !! j = Some LP
  ∧ find_subformula_end formula (Z.of_nat j) ≠ -1
  ∧ is_basic_compound subs
      (slice formula (Z.of_nat j) (find_subformula_end formula (Z.of_nat j) + 1)) = true.

(** The state of the scanner after the prefix of length [i]. *)
Definition scanned (subs : gmap (list N) (list N)) (formula : list N) (i : nat)
    (ml cs ce : Z) : Prop :=
  (cs = -1 ∧ ce = -1 ∧ ml = 0
   ∧ ∀ j, (j < i)%nat → qualifies subs formula j → depth (take j formula) + 1 < 0)
  ∨ (0 ≤ cs < Z.of_nat i
     ∧ qualifies subs formula (Z.to_nat cs)
     ∧ ml = depth (take (Z.to_nat cs) formula) + 1
     ∧ ce = find_subformula_end formula cs + 1
     ∧ ∀ j, (j < i)%nat → qualifies subs formula j →
         depth (take j formula) + 1 < ml
         ∨ (depth (take j formula) + 1 = ml ∧ Z.of_nat j ≤ cs)).

Lemma scanned_skip subs formula i ml cs ce :
  ¬ qualifies subs formula i ∨ depth (take i formula) + 1 < ml →
  scanned subs formula i ml cs ce → scanned subs formula (S i) ml cs ce.
Proof.
  intros Hi [(-> & -> & -> & Hall)|(Hcs & Hq & Hml & Hce & Hall)].
  - left. split_and!; [done..|]. intros j Hj Hqj.
    destruct (decide (j = i)) as [->|Hne]; [|apply Hall; [lia|done]].
    destruct Hi as [Hi|Hi]; [done|lia].
  - right. split; [lia|]. split_and!; [done..|]. intros j Hj Hqj.
    destruct (decide (j = i)) as [->|Hne]; [|apply Hall; [lia|done]].
    destruct Hi as [Hi|Hi]; [done|by left].
Qed.

Lemma scanned_take subs formula i ml cs ce :
  qualifies subs formula i → ml ≤ depth (take i formula) + 1 →
  scanned subs formula i ml cs ce →
  scanned subs formula (S i) (depth (take i formula) + 1) (Z.of_nat i)
          (find_subformula_end formula (Z.of_nat i) + 1).
Proof.
  intros Hq Hml Hs. right. rewrite Nat2Z.id. split; [lia|]. split_and!; [done..|].
  intros j Hj Hqj. destruct (decide (j = i)) as [->|Hne]; [right; lia|].
  destruct Hs as [(-> & -> & -> & Hall)|(Hcs & _ & Hml' & _ & Hall)].
  - left. specialize (Hall j ltac:(lia) Hqj). lia.
  - destruct (Hall j ltac:(lia) Hqj) as [?|[? ?]]; [left; lia|].
    destruct (decide (ml = depth (take i formula) + 1)); [right; lia|left; lia].
Qed.

Lemma find_first_loop_scanned subs formula pre rest ml cs ce cl :
  formula = pre ++ rest → cl = depth pre →
  scanned subs formula (length pre) ml cs ce →
  let r := find_first_loop subs formula rest (Z.of_nat (length pre)) ml cs ce cl in
  ∃ ml', scanned subs formula (length formula) ml' r.1 r.2.
Proof.
  revert pre ml cs ce cl.
  induction rest as [|c rest IH]; intros pre ml cs ce cl Hformula Hcl Hs.
  - simpl. exists ml. rewrite app_nil_r in Hformula. by subst formula.
  - assert (formula = (pre ++ [c]) ++ rest) as Hformula' by by rewrite <-app_assoc.
    assert (Z.of_nat (length pre) + 1 = Z.of_nat (length (pre ++ [c]))) as Hlen
      by (rewrite length_app; simpl; lia).
    assert (S (length pre) = length (pre ++ [c])) as Hlen'
      by (rewrite length_app; simpl; lia).
    assert (formula !! length pre = Some c) as Hc
      by (rewrite Hformula; by rewrite list_lookup_middle).
    assert (depth (take (length pre) formula) = cl) as Hd
      by (rewrite Hformula, take_app_length; done).
    cbn [find_first_loop]. rewrite Hlen.
    destruct (c =? LP)%N eqn:HLP.
    + apply N.eqb_eq in HLP as ->.
      assert (cl + 1 = depth (pre ++ [LP])) as Hcl'
        by (rewrite depth_snoc; change (paren_delta LP) with 1; lia).
      destruct (ml <=? cl + 1) eqn:Hml.
      * apply Z.leb_le in Hml.
        destruct (negb (find_subformula_end formula (Z.of_nat (length pre)) =? -1)) eqn:Hne.
        -- apply negb_true_iff, Z.eqb_neq in Hne.
           destruct (is_basic_compound subs
                       (slice formula (Z.of_nat (length pre))
                          (find_subformula_end formula (Z.of_nat (length pre)) + 1)))
             eqn:Hb.
           ++ apply IH; [done|done|]. rewrite <-Hlen', <-Hd.
              apply (scanned_take _ _ _ ml cs ce); [done|lia|done].
           ++ apply IH; [done|done|]. rewrite <-Hlen'.
              apply scanned_skip; [|done]. left. intros (_ & _ & Hq). congruence.
        -- apply negb_false_iff, Z.eqb_eq in Hne.
           apply IH; [done|done|]. rewrite <-Hlen'.
           apply scanned_skip; [|done]. left. intros (_ & Hq & _). done.
      * apply Z.leb_gt in Hml. apply IH; [done|done|]. rewrite <-Hlen'.
        apply scanned_skip; [|done]. right. lia.
    + assert (¬ qualifies subs formula (length pre)) as Hnq.
      { intros (Hq & _). rewrite Hc in Hq. injection Hq as ->. done. }
      destruct (c =? RP)%N eqn:HRP.
      * apply N.eqb_eq in HRP as ->. apply IH; [done| |].
        -- rewrite depth_snoc. change (paren_delta RP) with (-1). lia.
        -- rewrite <-Hlen'. apply scanned_skip; [by left|done].
      * apply IH; [done| |].
        -- rewrite depth_snoc. unfold paren_delta. rewrite HLP, HRP. lia.
        -- rewrite <-Hlen'. apply scanned_skip; [by left|done].
Qed.

(** The span that [find_first_basic_compound] returns lies between an
    opening parenthesis and the parenthesis that closes it, and is a basic
    compound; among the spans of this kind it is one of greatest nesting
    depth, and of these the last. *)
Theorem find_first_basic_compound_choice (subs : gmap (list N) (list N))
    (formula : list N) (s e : Z) (compound : list N) :
  find_first_basic_compound subs formula = Some (s, e, compound) →
  (0 ≤ s < e ∧ e ≤ Z.of_nat (length formula)
   ∧ formula !! Z.to_nat s = Some LP
   ∧ formula !! Z.to_nat (e - 1) = Some RP
   ∧ e - 1 = find_subformula_end formula s
   ∧ compound = slice formula s e
   ∧ is_basic_compound subs compound = true)
  ∧ ∀ j, qualifies subs formula j →
      depth (take j formula) < depth (take (Z.to_nat s) formula)
      ∨ (depth (take j formula) = depth (take (Z.to_nat s) formula) ∧ Z.of_nat j ≤ s).
Proof.
  intros Hf. pose proof (find_first_basic_compound_end _ _ _ _ _ Hf) as He.
  pose proof (find_first_basic_compound_Some _ _ _ _ _ Hf) as (Hse & Hlen & HLP & Hc & Hb).
  split.
  - split_and!; try done; try lia.
    replace (e - 1) with (find_subformula_end formula s) by lia.
    apply find_subformula_end_RP; lia.
  - unfold find_first_basic_compound in Hf.
    pose proof (find_first_loop_scanned subs formula [] formula 0 (-1) (-1) 0
                  eq_refl eq_refl) as Hscan.
    cbn [length] in Hscan. change (Z.of_nat 0) with 0 in Hscan.
    destruct (find_first_loop subs formula formula 0 0 (-1) (-1) 0) as [cs ce].
    destruct (negb (cs =? -1) && negb (ce =? -1)) eqn:Hne; [|done].
    injection Hf as <- <- <-.
    destruct Hscan as [ml' Hscan].
    { left. split_and!; [done..|]. intros j Hj. lia. }
    cbn [fst snd] in Hscan.
    destruct Hscan as [(-> & _)|(_ & _ & -> & _ & Hall)]; [lia|].
    intros j Hq. pose proof Hq as (Hj%lookup_lt_Some & _).
    destruct (Hall j Hj Hq) as [?|[? ?]]; [left; lia|right; lia].
Qed.

(** When [find_first_basic_compound] returns nothing, every span between
    an opening parenthesis and the parenthesis that closes it that is a
    basic compound starts after at least two more closing than opening
    parentheses: its level is below zero, so the scan did not test it. *)
Theorem find_first_basic_compound_None (subs : gmap (list N) (list N))
    (formula : list N) (j : nat) :
  find_first_basic_compound subs formula = None →
  qualifies subs formula j → depth (take j formula) < -1.
Proof.
  unfold find_first_basic_compound. intros Hf Hq.
  pose proof (find_first_loop_scanned subs formula [] formula 0 (-1) (-1) 0
                eq_refl eq_refl) as Hscan.
  cbn [length] in Hscan. change (Z.of_nat 0) with 0 in Hscan.
  destruct (find_first_loop subs formula formula 0 0 (-1) (-1) 0) as [cs ce].
  destruct Hscan as [ml' Hscan].
  { left. split_and!; [done..|]. intros i Hi. lia. }
  cbn [fst snd] in Hscan. pose proof Hq as (Hj%lookup_lt_Some & _).
  destruct Hscan as [(_ & _ & _ & Hall)|(Hcs & (_ & Hend & _) & _ & -> & _)].
  - specialize (Hall j Hj Hq). lia.
  - pose proof (find_subformula_end_range formula cs ltac:(lia)) as Hr. simpl in Hr.
    rewrite Z2Nat.id in Hend by lia.
    rewrite (proj2 (Z.eqb_neq cs (-1))) in Hf by lia.
    rewrite (proj2 (Z.eqb_neq _ (-1))) in Hf by lia. done.
Qed.

End Choice.


Lemma find_first_basic_compound_choice_witness :
  find_first_basic_compound (U:=ascii_only) ∅ (py "((P∧Q)∨(R∧S))")
  = Some (7, 12, py "(R∧S)")
  ∧ py "((P∧Q)∨(R∧S))" !! Z.to_nat (12 - 1) = Some RP
  ∧ py "(R∧S)" = slice (py "((P∧Q)∨(R∧S))") 7 12.
Proof.
  split; [vm_compute; reflexivity|].
  destruct (@find_first_basic_compound_choice ascii_only ∅ (py "((P∧Q)∨(R∧S))")
              7 12 (py "(R∧S)")) as [(_ & _ & _ & HRP & _ & Hc & _) _];
    [vm_compute; reflexivity|].
  split; [exact HRP|exact Hc].
Defined.

Lemma find_first_basic_compound_None_witness :
  find_first_basic_compound (U:=ascii_only) ∅ (py "))(P∧Q)") = None
  ∧ qualifies (U:=ascii_only) ∅ (py "))(P∧Q)") 2
  ∧ depth (take 2 (py "))(P∧Q)")) < -1.
Proof.
  assert (qualifies (U:=ascii_only) ∅ (py "))(P∧Q)") 2) as Hq.
  { split_and!; [reflexivity|vm_compute; discriminate|vm_compute; reflexivity]. }
  split; [vm_compute; reflexivity|]. split; [exact Hq|].
  apply (@find_first_basic_compound_None ascii_only ∅ (py "))(P∧Q)") 2);
    [vm_compute; reflexivity|exact Hq].
Defined.

(** ** Inputs without parentheses *)

Section NoParenthesis.
Context `{U : Unicode}.

(** An input without an opening parenthesis that is not an atomic
    proposition (the empty input, or a formula written without its
    parentheses) is rejected by the first pass through the main loop, with
    the error line of a missing basic compound and no reduction. *)
Theorem solve_formula_no_parenthesis (fuel : nat) (original : list N) :
  LP ∉ remove_spaces original →
  is_atomic (remove_spaces original) = false →
  (length original < fuel)%nat →
  ∃ p, prologue fuel original = Ok (inr (p, remove_spaces original))
       ∧ solve_formula fuel original
         = Ok (reject (append_step p (nl ++ py "Current formula: "
                                         ++ remove_spaces original))
                      (py "Error: No valid basic compound formula found")).
Proof.
  intros HLP Ha Hfuel.
  destruct (prologue_Ok fuel original Hfuel) as [[report Hr]|(p & Hp & _)].
  { exfalso. revert Hr. unfold prologue. rewrite Ha.
    assert (startswith (remove_spaces original) LP = false) as ->.
    { apply not_true_iff_false. intros [t Ht]%startswith_true.
      apply HLP. rewrite Ht. by left. }
    simpl. by destruct (scan_atomics _ _ _ _ _). }
  exists p. split; [done|].
  unfold solve_formula. rewrite Hp, bind_Ok.
  destruct fuel as [|fuel]; [lia|]. cbn [main_loop].
  unfold loop_body. rewrite Ha. cbn [substitutions append_step].
  destruct (find_first_basic_compound (substitutions p) (remove_spaces original))
    as [[[s e] compound]|] eqn:Hf; [|done].
  apply find_first_basic_compound_Some in Hf as (_ & _ & Hs%list_elem_of_lookup_2 & _).
  done.
Qed.

End NoParenthesis.

Lemma solve_formula_no_parenthesis_witness :
  ∃ p, prologue (U:=ascii_only) 1 [] = Ok (inr (p, remove_spaces []))
       ∧ solve_formula (U:=ascii_only) 1 []
         = Ok (reject (append_step p (nl ++ py "Current formula: " ++ remove_spaces []))
                      (py "Error: No valid basic compound formula found")).
Proof.
  apply (@solve_formula_no_parenthesis ascii_only 1 []).
  - intros H. inversion H.
  - reflexivity.
  - simpl. lia.
Defined.


(** ** The basic compounds, exactly *)

Section BasicCompound.
Context `{U : Unicode}.

(** The splitting loop passes over a segment that holds no operator
    symbol outside all parentheses. *)
Lemma split_parts_skip seg rest parts pc current operator :
  (∀ j c, seg !! j = Some c →
          ¬ (is_operator c = true ∧ pc + depth (take j seg) = 0)) →
  split_parts (seg ++ rest) parts pc current operator
  = split_parts rest parts (pc + depth seg) (current ++ seg) operator.
Proof.
  revert pc current. induction seg as [|c seg IH]; intros pc current Hseg.
  - simpl. by rewrite Z.add_0_r, app_nil_r.
  - assert (∀ pc', pc' = pc + paren_delta c →
            split_parts (seg ++ rest) parts pc' (current ++ [c]) operator
            = split_parts rest parts (pc + depth (c :: seg)) (current ++ c :: seg) operator)
      as Hnext.
    { intros pc' ->. rewrite IH.
      - simpl. rewrite <-app_assoc. simpl. f_equal. lia.
      - intros j x Hx. specialize (Hseg (S j) x Hx). simpl in Hseg.
        intros [Hop Hd]. apply Hseg. split; [done|lia]. }
    cbn [app split_parts].
    destruct (c =? LP)%N eqn:HLP.
    { apply Hnext. unfold paren_delta. by rewrite HLP. }
    destruct (c =? RP)%N eqn:HRP.
    { apply Hnext. unfold paren_delta. rewrite HLP, HRP. lia. }
    destruct (is_operator c && (pc =? 0)) eqn:Hop.
    + apply andb_true_iff in Hop as [Hop Hpc%Z.eqb_eq].
      destruct (Hseg 0%nat c eq_refl). split; [done|]. simpl. lia.
    + apply Hnext. unfold paren_delta. rewrite HLP, HRP. lia.
Qed.

Lemma split_parts_skip_end seg parts pc current operator :
  (∀ j c, seg !! j = Some c →
          ¬ (is_operator c = true ∧ pc + depth (take j seg) = 0)) →
  split_parts seg parts pc current operator = Some (parts, current ++ seg, operator).
Proof.
  intros Hseg. rewrite <-(app_nil_r seg) at 1. by rewrite split_parts_skip.
Qed.

Lemma operand_true subs p :
  is_atomic p || in_substitutions subs p = true ↔ operand subs p.
Proof.
  unfold operand, in_substitutions.
  by rewrite orb_true_iff, bool_decide_eq_true.
Qed.

Lemma is_basic_compound_negation_operand subs a :
  operand subs a → is_basic_compound subs (LP :: (NEG :: a) ++ [RP]) = true.
Proof.
  intros Ha%operand_true. unfold is_basic_compound.
  assert (startswith (LP :: (NEG :: a) ++ [RP]) LP
          && endswith (LP :: (NEG :: a) ++ [RP]) RP = true) as ->
    by (apply wrapped_spec; eauto).
  rewrite strip_ends_wrap, startswith_cons, N.eqb_refl. cbn [negb drop].
  by rewrite drop_0.
Qed.

Lemma is_basic_compound_binary_operands subs l op r :
  startswith (l ++ op :: r) NEG = false →
  is_operator op = true → l ≠ [] → r ≠ [] →
  (∀ i, operator_at_depth_zero (l ++ op :: r) i ↔ i = length l) →
  operand subs l → operand subs r →
  is_basic_compound subs (LP :: (l ++ op :: r) ++ [RP]) = true.
Proof.
  intros Hneg Hop Hl Hr Hone Hol%operand_true Hor%operand_true.
  assert (depth l = 0) as Hd.
  { destruct (proj2 (Hone (length l)) eq_refl) as (c & _ & _ & Hd).
    by rewrite take_app_length in Hd. }
  unfold is_basic_compound.
  assert (startswith (LP :: (l ++ op :: r) ++ [RP]) LP
          && endswith (LP :: (l ++ op :: r) ++ [RP]) RP = true) as ->
    by (apply wrapped_spec; eauto).
  rewrite strip_ends_wrap, Hneg. cbn [negb].
  rewrite split_parts_skip.
  2:{ intros j c Hc [Hopc Hdj]. pose proof (lookup_lt_Some _ _ _ Hc) as Hlt.
      assert (j = length l); [|lia]. apply Hone. exists c.
      rewrite lookup_app_l by done. rewrite take_app_le by lia.
      split_and!; [done..|lia]. }
  destruct (operator_not_paren op Hop) as [H1 H2].
  cbn [split_parts app]. rewrite Hd.
  rewrite (proj2 (N.eqb_neq _ _) H1), (proj2 (N.eqb_neq _ _) H2), Hop.
  change (0 + 0) with 0. cbn [andb Z.eqb].
  rewrite (bool_decide_eq_false_2 (l = [])) by done.
  rewrite split_parts_skip_end.
  2:{ intros j c Hc [Hopc Hdj]. pose proof (lookup_lt_Some _ _ _ Hc) as Hlt.
      assert (length l + S j = length l)%nat; [|lia]. apply Hone. exists c.
      rewrite lookup_app_r by lia.
      replace (length l + S j - length l)%nat with (S j) by lia.
      split_and!; [done..|].
      rewrite take_app_ge by lia.
      replace (length l + S j - length l)%nat with (S j) by lia.
      rewrite depth_app. simpl. rewrite Hd, (paren_delta_operator op Hop). lia. }
  cbn [app].
  rewrite (bool_decide_eq_false_2 (r = [])) by done.
  rewrite (bool_decide_eq_false_2 (Some op = None)) by done.
  cbn [app length Nat.eqb negb orb forallb].
  by rewrite Hol, Hor.
Qed.

(** [is_basic_compound] accepts exactly the spans [(¬a)], and the spans
    [(l op r)] whose interior does not start with the negation symbol and
    has [op] as its only operator symbol outside all parentheses, where
    each of [a], [l], [r] is an atomic proposition or a key of the table,
    and [l] and [r] are not empty. *)
Theorem is_basic_compound_iff (subs : gmap (list N) (list N)) (s : list N) :
  is_basic_compound subs s = true ↔
  ∃ inner, s = LP :: inner ++ [RP]
    ∧ ((∃ a, inner = NEG :: a ∧ (is_atomic a = true ∨ is_Some (subs !! a)))
       ∨ (startswith inner NEG = false
          ∧ ∃ l op r,
              inner = l ++ op :: r
              ∧ is_operator op = true
              ∧ l ≠ [] ∧ r ≠ []
              ∧ (∀ i, operator_at_depth_zero inner i ↔ i = length l)
              ∧ (is_atomic l = true ∨ is_Some (subs !! l))
              ∧ (is_atomic r = true ∨ is_Some (subs !! r)))).
Proof.
  split.
  - intros Hb. destruct (startswith (strip_ends s) NEG) eqn:Hneg.
    + apply is_basic_compound_negation in Hb as (a & -> & Ha); [|done].
      exists (NEG :: a). split; [done|]. left. by exists a.
    + pose proof Hb as (l & op & r & -> & Hop & Hl & Hr & Hd & Hone & Hol & Hor)
        %is_basic_compound_binary; [|done].
      rewrite strip_ends_wrap in Hneg.
      exists (l ++ op :: r). split; [done|]. right. split; [done|].
      exists l, op, r. split_and!; try done.
      intros i. split; [apply Hone|]. intros ->. exists op.
      by rewrite list_lookup_middle, take_app_length.
  - intros (inner & -> & [(a & -> & Ha)|(Hneg & l & op & r & -> & Hop & Hl & Hr & Hone & Hol & Hor)]).
    + by apply is_basic_compound_negation_operand.
    + by apply is_basic_compound_binary_operands.
Qed.

End BasicCompound.

(** ** The atomic facts of a report *)

Section Facts.
Context `{U : Unicode}.

Lemma scan_atomics_facts fuel formula i atomic_vars p p' :
  scan_atomics fuel formula i atomic_vars p = Ok p' →
  ∃ tokens,
    steps p' = steps p ++ map atomic_fact tokens
    ∧ NoDup tokens
    ∧ ∀ t, t ∈ tokens → is_atomic t = true ∧ t ∉ atomic_vars.
Proof.
  revert i atomic_vars p. induction fuel as [|fuel IH]; intros i vars p; [done|]. simpl.
  destruct (i <? _).
  2:{ intros [= ->]. exists []. split_and!; [by rewrite app_nil_r|constructor|].
      intros t Ht. by apply elem_of_nil in Ht. }
  destruct (index formula i) as [c| |]; simpl; [|done..].
  destruct (str_isalpha [c]); [|apply IH].
  destruct (scan_digits fuel formula (i + 1)) as [j| |]; simpl; [|done..].
  destruct (is_atomic (slice formula i j)
            && negb (bool_decide (slice formula i j ∈ vars))) eqn:Hnew; [|apply IH].
  apply andb_true_iff in Hnew as [Ha Hnotin%negb_true_iff%bool_decide_eq_false].
  intros (tokens & Hsteps & Hnodup & Htokens)%IH.
  exists (slice formula i j :: tokens). split_and!.
  - rewrite Hsteps. cbn [steps append_step map]. by rewrite <-app_assoc.
  - constructor; [|done]. intros Hin. destruct (Htokens _ Hin) as [_ Hn].
    apply Hn, elem_of_union. left. by apply elem_of_singleton.
  - intros t [->|Ht]%elem_of_cons; [done|].
    destruct (Htokens _ Ht) as [Hat Hn]. split; [done|].
    intros Hin. apply Hn, elem_of_union. by right.
Qed.

(** When [solve_formula] enters its main loop, the report so far is the
    header, one atomic-membership fact line per token found, and the line
    that opens the substitutions; every token is an atomic proposition and
    no token is listed twice. *)
Theorem prologue_facts (fuel : nat) (original : list N) (p : parser) (cur : list N) :
  prologue fuel original = Ok (inr (p, cur)) →
  ∃ tokens,
    steps p = [py "Analyzing formula: " ++ remove_spaces original ++ nl]
                ++ map atomic_fact tokens ++ [nl ++ py "Begin substitutions:"]
    ∧ NoDup tokens
    ∧ ∀ t, t ∈ tokens → is_atomic t = true.
Proof.
  unfold prologue.
  destruct (is_atomic (remove_spaces original)); [done|].
  destruct (_ && is_atomic _); [done|].
  destruct (scan_atomics fuel _ _ _ _) as [p'| |] eqn:Hscan; simpl; [|done..].
  intros [= <- <-].
  apply scan_atomics_facts in Hscan as (tokens & Hsteps & Hnodup & Htokens).
  exists tokens. split_and!; [|done|by intros t [? _]%Htokens].
  cbn [steps append_step] in *. rewrite Hsteps. by rewrite <-app_assoc.
Qed.

End Facts.

Lemma prologue_facts_witness :
  match prologue (U:=ascii_only) 8 (py "(P∧P)") with
  | Ok (inr (p, cur)) =>
    ∃ tokens,
      steps p = [py "Analyzing formula: " ++ remove_spaces (py "(P∧P)") ++ nl]
                  ++ map atomic_fact tokens ++ [nl ++ py "Begin substitutions:"]
      ∧ NoDup tokens
      ∧ ∀ t, t ∈ tokens → is_atomic (U:=ascii_only) t = true
  | _ => False
  end.
Proof.
  destruct (prologue (U:=ascii_only) 8 (py "(P∧P)")) as [[r|[p cur]]| |] eqn:Hpro;
    try (vm_compute in Hpro; discriminate Hpro).
  exact (@prologue_facts ascii_only 8 (py "(P∧P)") p cur Hpro).
Defined.


(** ** The compounds that a run reduces *)

Section Flat.
Context `{U : Unicode}.

(** A basic compound over atomic propositions. *)
Definition flat (k : list N) : Prop :=
  (∃ a, k = LP :: (NEG :: a) ++ [RP] ∧ is_atomic a = true)
  ∨ (∃ l op r, k = LP :: (l ++ op :: r) ++ [RP]
       ∧ is_atomic l = true ∧ is_operator op = true ∧ is_atomic r = true).

Definition table_flat (subs : gmap (list N) (list N)) : Prop :=
  ∀ k, is_Some (subs !! k) → flat k.

Lemma flat_basic subs k : flat k → is_basic_compound subs k = true.
Proof.
  intros [(a & -> & Ha)|(l & op & r & -> & Hl & Hop & Hr)].
  - by apply is_basic_compound_negation_atom.
  - by apply is_basic_compound_binary_atoms.
Qed.

Lemma flat_body k : flat k → ∃ body, k = LP :: body ++ [RP] ∧ balanced body.
Proof.
  intros [(a & -> & Ha)|(l & op & r & -> & Hl & Hop & Hr)].
  - exists (NEG :: a). split; [done|]. apply balanced_plain.
    intros c [->|Hc]%elem_of_cons.
    + apply operator_not_paren. by vm_compute.
    + by destruct (is_atomic_plain a c Ha Hc) as (? & ? & _).
  - exists (l ++ op :: r). split; [done|]. apply balanced_plain.
    intros c [Hc|[->|Hc]%elem_of_cons]%elem_of_app.
    + by destruct (is_atomic_plain l c Hl Hc) as (? & ? & _).
    + by apply operator_not_paren.
    + by destruct (is_atomic_plain r c Hr Hc) as (? & ? & _).
Qed.

(** A basic compound over atomic propositions is a span that the scanner
    can return, wherever it occurs. *)
Lemma flat_qualifies subs pre k post :
  flat k → qualifies subs (pre ++ k ++ post) (length pre).
Proof.
  intros Hk. destruct (flat_body k Hk) as (body & -> & Hb).
  pose proof (find_subformula_end_span pre body post Hb) as Hend.
  unfold qualifies. rewrite Hend. split_and!.
  - cbn [app]. by rewrite list_lookup_middle.
  - lia.
  - replace (Z.of_nat (length pre + length body + 1) + 1)
      with (Z.of_nat (length pre + length (LP :: body ++ [RP]))).
    2:{ rewrite length_cons, length_app. simpl. lia. }
    rewrite slice_span. by apply flat_basic.
Qed.

Lemma find_first_basic_compound_deepest subs formula s e compound j :
  find_first_basic_compound subs formula = Some (s, e, compound) →
  qualifies subs formula j →
  depth (take j formula) ≤ depth (take (Z.to_nat s) formula).
Proof.
  intros Hf Hq. unfold find_first_basic_compound in Hf.
  pose proof (find_first_loop_scanned subs formula [] formula 0 (-1) (-1) 0
                eq_refl eq_refl) as Hscan.
  cbn [length] in Hscan. change (Z.of_nat 0) with 0 in Hscan.
  destruct (find_first_loop subs formula formula 0 0 (-1) (-1) 0) as [cs ce].
  destruct (negb (cs =? -1) && negb (ce =? -1)) eqn:Hne; [|done].
  injection Hf as <- <- <-.
  destruct Hscan as [ml' Hscan].
  { left. split_and!; [done..|]. intros i Hi. lia. }
  cbn [fst snd] in Hscan.
  destruct Hscan as [(-> & _)|(_ & _ & -> & _ & Hall)]; [lia|].
  pose proof Hq as (Hj%lookup_lt_Some & _).
  destruct (Hall j Hj Hq) as [?|[? ?]]; lia.
Qed.

(** The scanner never returns a compound with a key of the table as an
    operand: the key is a deeper span that it can return. *)
Lemma find_first_basic_compound_flat subs cur s e compound :
  table_flat subs →
  find_first_basic_compound subs cur = Some (s, e, compound) → flat compound.
Proof.
  intros Hflat Hf.
  pose proof (find_first_basic_compound_Some _ _ _ _ _ Hf) as (Hse & Hlen & HLP & Hc & Hb).
  pose proof (take_slice_drop cur s e ltac:(lia)) as Hcur. rewrite <-Hc in Hcur.
  remember (take (Z.to_nat s) cur) as pre eqn:Hpre.
  remember (drop (Z.to_nat e) cur) as post eqn:Hpost.
  assert (∀ mid k rest, compound = mid ++ k ++ rest → flat k → depth mid ≤ 0) as Hdeep.
  { intros mid k rest Hcomp Hk.
    pose proof (flat_qualifies subs (pre ++ mid) k (rest ++ post) Hk) as Hq.
    assert ((pre ++ mid) ++ k ++ rest ++ post = cur) as Heq.
    { rewrite Hcur, Hcomp. by rewrite <-!app_assoc. }
    rewrite Heq in Hq.
    pose proof (find_first_basic_compound_deepest _ _ _ _ _ _ Hf Hq) as Hd.
    rewrite <-Hpre in Hd. rewrite <-Heq in Hd at 1.
    rewrite take_app_length, depth_app in Hd. lia. }
  assert (depth [LP] = 1) as HdLP by reflexivity.
  destruct (startswith (strip_ends compound) NEG) eqn:Hneg.
  - destruct (is_basic_compound_negation _ _ Hb Hneg) as (a & Hcomp & [Ha|Ha]).
    + left. by exists a.
    + exfalso. specialize (Hdeep [LP; NEG] a [RP] Hcomp (Hflat a Ha)).
      change (depth [LP; NEG]) with 1 in Hdeep. lia.
  - destruct (is_basic_compound_binary _ _ Hb Hneg)
      as (l & op & r & Hcomp & Hop & _ & _ & Hd & _ & Hl & Hr).
    destruct Hl as [Hl|Hl].
    + destruct Hr as [Hr|Hr]; [right; by exists l, op, r|].
      exfalso. specialize (Hdeep ([LP] ++ l ++ [op]) r [RP]).
      rewrite depth_app, depth_snoc, Hd, HdLP, (paren_delta_operator op Hop) in Hdeep.
      assert (1 + (0 + 0) ≤ 0); [|lia]. apply Hdeep; [|by apply Hflat].
      rewrite Hcomp. cbn [app]. by rewrite <-!app_assoc.
    + exfalso. specialize (Hdeep [LP] l (op :: r ++ [RP])).
      rewrite HdLP in Hdeep.
      assert (1 ≤ 0); [|lia]. apply Hdeep; [|by apply Hflat].
      rewrite Hcomp. cbn [app]. by rewrite <-!app_assoc.
Qed.

Lemma loop_body_table_flat p cur p2 cur2 :
  table_flat (substitutions p) → loop_body p cur = Next p2 cur2 →
  table_flat (substitutions p2).
Proof.
  intros Hok (s & e & compound & _ & Hf & _ & Hs & _)%loop_body_Next.
  apply find_first_basic_compound_flat in Hf; [|done].
  intros k. rewrite Hs, lookup_insert. case_decide as Hk.
  - intros _. by subst k.
  - apply Hok.
Qed.

Lemma iterate_table_flat n p cur p1 cur1 :
  table_flat (substitutions p) → iterate n p cur = Some (p1, cur1) →
  table_flat (substitutions p1).
Proof.
  revert p cur. induction n as [|n IH]; intros p cur Hok; simpl.
  - by intros [= <- <-].
  - destruct (loop_body p cur) as [| |p2 cur2] eqn:Hbody; [done..|].
    apply IH. by eapply loop_body_table_flat.
Qed.

(** In a run of [solve_formula], every key of the substitution table and
    every compound that the main loop is about to reduce is the negation of
    an atomic proposition, or two atomic propositions joined by one
    operator symbol.  [is_basic_compound] accepts keys of the table as
    operands, but the scanner never returns such a compound: the key is
    itself a deeper span that it can return. *)
Theorem reduced_compound_atomic_operands (fuel : nat) (original : list N)
    (p : parser) (cur : list N) (n : nat) (p1 : parser) (cur1 : list N) :
  prologue fuel original = Ok (inr (p, cur)) →
  iterate n p cur = Some (p1, cur1) →
  (∀ k, is_Some (substitutions p1 !! k) → flat k)
  ∧ ∀ s e compound,
      find_first_basic_compound (substitutions p1) cur1 = Some (s, e, compound) →
      flat compound.
Proof.
  intros [_ [_ Hsubs]]%prologue_inr Hit.
  assert (table_flat (substitutions p1)) as Hflat.
  { apply (iterate_table_flat n p cur p1 cur1); [|exact Hit].
    intros k [v Hv]. by destruct (Hsubs k v Hv) as [_ (m & ? & _)]; lia. }
  split; [exact Hflat|].
  intros s e compound Hf. by apply (find_first_basic_compound_flat _ _ _ _ _ Hflat Hf).
Qed.

End Flat.

Lemma reduced_compound_atomic_operands_witness :
  match prologue (U:=ascii_only) 12 (py "((P∧Q)∨R)") with
  | Ok (inr (p, cur)) =>
    match iterate (U:=ascii_only) 1 p cur with
    | Some (p1, cur1) =>
      (∀ k, is_Some (substitutions p1 !! k) → flat (U:=ascii_only) k)
      ∧ ∀ s e compound,
          find_first_basic_compound (U:=ascii_only) (substitutions p1) cur1
          = Some (s, e, compound) →
          flat (U:=ascii_only) compound
    | None => False
    end
  | _ => False
  end.
Proof.
  destruct (prologue (U:=ascii_only) 12 (py "((P∧Q)∨R)")) as [[r|[p cur]]| |] eqn:Hpro;
    try (vm_compute in Hpro; discriminate Hpro).
  destruct (iterate (U:=ascii_only) 1 p cur) as [[p1 cur1]|] eqn:Hit.
  - exact (@reduced_compound_atomic_operands ascii_only 12 (py "((P∧Q)∨R)")
             p cur 1 p1 cur1 Hpro Hit).
  - vm_compute in Hpro. injection Hpro as <- <-. vm_compute in Hit. discriminate Hit.
Defined.
